(** * The factor-mining control loop of [factor_mining.py]

    A shallow embedding of [FactorMiningSystem] (src/factor_mining.py), of the
    part of [AIClient] it calls (src/AI_wqb/ai_client.py) and of
    [FACTOR_MINING_CONFIG] (src/AI_wqb/config_local.py), followed by the
    properties of the control loop.

    Conventions of the model:
    - Python [str] is [string]; [str.lower] is modelled on ASCII letters
      (other bytes are left as they are);
    - a Python [dict] whose iteration order matters is an association list
      in insertion order with unique keys;
    - JSON documents received from the remote services are values of [json];
      numbers are rationals (every finite float or int is one), so the
      comparison [>=] is exact; NaN and infinities are outside the model;
    - the remote services (the WorldQuant session and the chat completion
      endpoint) and the file system are a [world]: a family of replies indexed
      by the number of calls made so far;
    - exceptions are those of class [Exception], the only ones the handlers
      of the source name; process-level interruption is outside the model;
    - [mine_factors] need not terminate, so its outer loop takes fuel. *)

From Stdlib Require Import String Ascii List ZArith QArith Bool Arith Lia.
From Stdlib Require Import RelationClasses.
Import ListNotations.

Local Open Scope string_scope.
Local Open Scope list_scope.

(* ===================================================================== *)
(** ** Python primitives *)
(* ===================================================================== *)

Module Py.

(** [c.lower()] for one ASCII character. *)
Definition lower_ascii (c : ascii) : ascii :=
  let n := nat_of_ascii c in
  if (65 <=? n)%nat && (n <=? 90)%nat then ascii_of_nat (n + 32) else c.

(** [s.lower()]. *)
Fixpoint lower (s : string) : string :=
  match s with
  | EmptyString => EmptyString
  | String c s' => String (lower_ascii c) (lower s')
  end.

(** [sub in s]: [sub] occurs in [s] as a contiguous substring. *)
Fixpoint contains (sub s : string) : bool :=
  String.prefix sub s
  || match s with
     | EmptyString => false
     | String _ s' => contains sub s'
     end.

(** [s.replace(old, new)] for a non-empty [old]: a left-to-right scan that
    replaces non-overlapping occurrences.  [skip] counts the characters of
    an occurrence already replaced that are still to be dropped. *)
Fixpoint replace_scan (old new : string) (skip : nat) (s : string) : string :=
  match s with
  | EmptyString => EmptyString
  | String c s' =>
      match skip with
      | S k => replace_scan old new k s'
      | O =>
          if String.prefix old s
          then new ++ replace_scan old new (String.length old - 1) s'
          else String c (replace_scan old new 0 s')
      end
  end.

(** [s.replace("", new)]: [new] is inserted before every character and at
    the end. *)
Fixpoint replace_empty (new s : string) : string :=
  match s with
  | EmptyString => new
  | String c s' => new ++ String c (replace_empty new s')
  end.

(** [s.replace(old, new)]. *)
Definition replace (old new s : string) : string :=
  match old with
  | EmptyString => replace_empty new s
  | String _ _ => replace_scan old new 0 s
  end.

(** A [dict] with string keys, kept in insertion order. *)
Definition dict (V : Type) : Type := list (string * V).

(** [d[k]] / [d.get(k)]: [None] when the key is absent. *)
Fixpoint dict_get {V} (k : string) (d : dict V) : option V :=
  match d with
  | [] => None
  | (k', v) :: d' => if String.eqb k k' then Some v else dict_get k d'
  end.

(** [k in d]. *)
Definition dict_has {V} (k : string) (d : dict V) : bool :=
  match dict_get k d with Some _ => true | None => false end.

(** [d[k] = v]: an existing key keeps its position, a new key goes last. *)
Fixpoint dict_set {V} (k : string) (v : V) (d : dict V) : dict V :=
  match d with
  | [] => [(k, v)]
  | (k', v') :: d' =>
      if String.eqb k k' then (k', v) :: d' else (k', v') :: dict_set k v d'
  end.

End Py.

Import Py.

(* ===================================================================== *)
(** ** Data model *)
(* ===================================================================== *)

(** A parsed JSON document ([resp.json()], [json.loads]). *)
#[local] Set Warnings "-register-all".
Inductive json : Type :=
| JNull
| JBool (b : bool)
| JNum (q : Q)
| JStr (s : string)
| JArr (items : list json)
| JObj (members : list (string * json)).

(** The exceptions the modelled code can raise or receive. *)
Inductive exn : Type :=
| IndexError
| KeyError
| ValueError
| TypeError
| AttributeError
| ZeroDivisionError
| JSONDecodeError
| OtherError (msg : string).

(** What a call into the outside world gives back: a value or an exception. *)
Inductive reply (A : Type) : Type :=
| Ok (a : A)
| Fail (e : exn).
Arguments Ok {A} a.
Arguments Fail {A} e.

(** Python truthiness ([if not x]) of a JSON value. *)
Definition truthy (j : json) : bool :=
  match j with
  | JNull => false
  | JBool b => b
  | JNum q => negb (Qeq_bool q 0)
  | JStr s => negb (String.eqb s "")
  | JArr l => match l with [] => false | _ :: _ => true end
  | JObj o => match o with [] => false | _ :: _ => true end
  end.

(** [x.get(key, default)]: only a dict has [get]. *)
Definition py_get (x : json) (key : string) (default : json) : reply json :=
  match x with
  | JObj o => Ok (match dict_get key o with Some v => v | None => default end)
  | _ => Fail AttributeError
  end.

(** [x[0]]. *)
Definition py_index0 (x : json) : reply json :=
  match x with
  | JArr (v :: _) => Ok v
  | JArr [] => Fail IndexError
  | JStr (String c _) => Ok (JStr (String c EmptyString))
  | JStr EmptyString => Fail IndexError
  | JObj _ => Fail KeyError
  | _ => Fail TypeError
  end.

(** [x >= bound] for a numeric [bound]; [True] and [False] count as 1 and 0. *)
Definition py_ge (x : json) (bound : Q) : reply bool :=
  match x with
  | JNum v => Ok (Qle_bool bound v)
  | JBool b => Ok (Qle_bool bound (if b then 1 else 0))
  | _ => Fail TypeError
  end.

(** [dataset['id'] == selected_id] for a catalog id, which is a string. *)
Definition id_equals (id : string) (selected_id : json) : bool :=
  match selected_id with
  | JStr s => String.eqb id s
  | _ => false
  end.

(** An entry of [datasets_info['results']], taken to carry its ['id'] and
    its ['name'] as the entries of the catalog service do: an entry without
    one of them (a [KeyError] at line 139 or, with a logger, at line 142) is
    outside this model. *)
Record dataset : Type := {
  ds_id : string;
  ds_name : string
}.

(** A record of the field listing ([get_datafields]). *)
Record field : Type := {
  field_id : string;
  field_description : string
}.

(** What [ExtendedWQBSession.get_datafields] returns: the JSON text of the
    field records (never an empty string: [to_json] yields at least a pair of
    brackets), here by the records it serialises, or the empty [DataFrame]
    of its failure path. *)
Inductive fields_reply : Type :=
| FieldsJson (records : list field)
| EmptyFrame.

(** An HTTP response: [resp.ok] and [resp.json()] ([None]: not JSON). *)
Record response : Type := {
  ok : bool;
  body : option json
}.

(** One element of [mined_factors] (the [factor_info] dict). *)
Record factor_info : Type := {
  expression : json;
  simulation : dict json;
  check : json;
  dataset_of : dataset
}.

(** [FACTOR_MINING_CONFIG]. *)
Record config : Type := {
  max_iterations : Z;
  min_sharpe : Q;
  max_factors : Z;
  save_interval : Z
}.

(** The values of config_local.py. *)
Definition FACTOR_MINING_CONFIG : config :=
  {| max_iterations := 10;
     min_sharpe := 15 # 10;
     max_factors := 100;
     save_interval := 10 |}.

(** The two call sites of [save_factors] in [mine_factors]: inside the loop
    (line 421) and after it (line 435).  Recorded in the trace only. *)
Inductive save_site : Type := Periodic | Final.

Inductive level : Type := Info | Warning | Error.

(** Observable steps of a run, in program order.  [EvLog] records a call of
    [_log_info], [_log_warning] or [_log_error] (which write only when a
    logger is configured); direct [self.logger] calls are not recorded. *)
Inductive event : Type :=
| EvSelectDataset
| EvGenerateInitial
| EvGenerateNext (previous_factors : list factor_info)
| EvSubmit (regular : json)
| EvCheck (alpha_id : json)
| EvAppend (r : factor_info)
| EvSave (site : save_site) (snapshot : list factor_info)
| EvLog (lvl : level) (msg : string).

(** The outside world.  Each function is indexed by the number of calls made
    before it in the run. *)
Record world : Type := {
  (** [wqbs.search_datasets_limited(...).json()]: [None] when the document
      has no ['results'] key, else its list. *)
  search_datasets_limited : nat -> reply (option (list dataset));
  (** the operator names of [wqbs.search_operators().json()] *)
  search_operators : nat -> reply (list string);
  (** the chat completion: its content parsed as JSON ([None]: not JSON) *)
  chat_completion : nat -> reply (option json);
  get_datafields : nat -> string -> reply fields_reply;
  simulate : nat -> json -> reply response;
  wqbs_check : nat -> json -> reply response;
  (** opening and writing the snapshot file *)
  write_file : nat -> list factor_info -> option exn
}.

(** The attributes of a [FactorMiningSystem], with the call counter and the
    trace of the run. *)
Record system : Type := {
  logger : bool;
  datasets_info : option (list dataset);
  operators_info : list string;
  mined_factors : list factor_info;
  current_dataset : option dataset;
  clock : nat;
  trace : list event
}.

(** [FactorMiningSystem.__init__]: [datasets_info] is a dict without
    ['results']. *)
Definition init_system (has_logger : bool) : system :=
  {| logger := has_logger;
     datasets_info := None;
     operators_info := [];
     mined_factors := [];
     current_dataset := None;
     clock := 0;
     trace := [] |}.

(* ===================================================================== *)
(** ** The monad of the controller: state, exceptions, fuel *)
(* ===================================================================== *)

Inductive outcome (A : Type) : Type :=
| Ret (a : A)
| Raise (e : exn)
| OutOfFuel.
Arguments Ret {A} a.
Arguments Raise {A} e.
Arguments OutOfFuel {A}.

Definition M (A : Type) : Type := system -> outcome A * system.

Definition ret {A} (a : A) : M A := fun s => (Ret a, s).

Definition bind {A B} (m : M A) (k : A -> M B) : M B :=
  fun s =>
    match m s with
    | (Ret a, s') => k a s'
    | (Raise e, s') => (Raise e, s')
    | (OutOfFuel, s') => (OutOfFuel, s')
    end.

Definition raise {A} (e : exn) : M A := fun s => (Raise e, s).

Definition out_of_fuel {A} : M A := fun s => (OutOfFuel, s).

(** [try: m  except Exception as e: h e]. *)
Definition try_except {A} (m : M A) (h : exn -> M A) : M A :=
  fun s =>
    match m s with
    | (Raise e, s') => h e s'
    | r => r
    end.

Definition gets {A} (f : system -> A) : M A := fun s => (Ret (f s), s).

Definition modify (f : system -> system) : M unit := fun s => (Ret tt, f s).

Declare Scope py_scope.
Delimit Scope py_scope with py.
Notation "x <- m ;; k" := (bind m (fun x => k))
  (at level 61, m at next level, right associativity) : py_scope.
Notation "m ;; k" := (bind m (fun _ => k))
  (at level 61, right associativity) : py_scope.
Local Open Scope py_scope.

Definition lift {A} (r : reply A) : M A :=
  match r with
  | Ok a => ret a
  | Fail e => raise e
  end.

Definition set_clock (n : nat) (s : system) : system :=
  {| logger := logger s; datasets_info := datasets_info s;
     operators_info := operators_info s; mined_factors := mined_factors s;
     current_dataset := current_dataset s; clock := n; trace := trace s |}.

Definition set_trace (t : list event) (s : system) : system :=
  {| logger := logger s; datasets_info := datasets_info s;
     operators_info := operators_info s; mined_factors := mined_factors s;
     current_dataset := current_dataset s; clock := clock s; trace := t |}.

Definition set_datasets_info (d : option (list dataset)) (s : system) : system :=
  {| logger := logger s; datasets_info := d;
     operators_info := operators_info s; mined_factors := mined_factors s;
     current_dataset := current_dataset s; clock := clock s; trace := trace s |}.

Definition set_operators_info (o : list string) (s : system) : system :=
  {| logger := logger s; datasets_info := datasets_info s;
     operators_info := o; mined_factors := mined_factors s;
     current_dataset := current_dataset s; clock := clock s; trace := trace s |}.

Definition set_current_dataset (d : dataset) (s : system) : system :=
  {| logger := logger s; datasets_info := datasets_info s;
     operators_info := operators_info s; mined_factors := mined_factors s;
     current_dataset := Some d; clock := clock s; trace := trace s |}.

Definition set_mined_factors (l : list factor_info) (s : system) : system :=
  {| logger := logger s; datasets_info := datasets_info s;
     operators_info := operators_info s; mined_factors := l;
     current_dataset := current_dataset s; clock := clock s; trace := trace s |}.

(** Record one step in the trace. *)
Definition emit (e : event) : M unit :=
  modify (fun s => set_trace (trace s ++ [e]) s).

(** One call into the world: the counter advances, the reply comes back. *)
Definition call {A} (f : nat -> A) : M A :=
  fun s => (Ret (f (clock s)), set_clock (S (clock s)) s).

(** [self.mined_factors.append(r)]. *)
Definition append (r : factor_info) : M unit :=
  modify (fun s => set_mined_factors (mined_factors s ++ [r]) s) ;;
  emit (EvAppend r).

Definition _log_error (msg : string) : M unit := emit (EvLog Error msg).
Definition _log_warning (msg : string) : M unit := emit (EvLog Warning msg).
Definition _log_info (msg : string) : M unit := emit (EvLog Info msg).

(* ===================================================================== *)
(** ** AIClient (ai_client.py) and FactorMiningSystem (factor_mining.py) *)
(* ===================================================================== *)

(** [AIClient._get_default_response] (its text is a Chinese sentence in the
    source; no key of it is ever looked up). *)
Definition _get_default_response : dict json :=
  [("text", JStr "unavailable"); ("image", JStr ""); ("url", JStr "")].

(** The [field_map] of [simulate_factor]:
    [{field['id'].lower(): field for field in fields_data}]. *)
Definition build_field_map (fields_data : list field) : dict field :=
  fold_left (fun m f => dict_set (lower (field_id f)) f m) fields_data [].

(** The casing loop of [simulate_factor] on a string:
    [for field_id, field_info in field_map.items():
       if field_id in factor_expr.lower():
         factor_expr = factor_expr.replace(field_id, field_info['id'])]. *)
Definition normalize_str (field_map : dict field) (factor_expr : string) : string :=
  fold_left
    (fun expr (item : string * field) =>
       let (fid, field_info) := item in
       if contains fid (lower expr)
       then replace fid (field_id field_info) expr
       else expr)
    field_map factor_expr.

(** The same loop on whatever the generator returned: a value that is not a
    string has no [lower], which shows as soon as the loop body runs. *)
Definition normalize_fields (field_map : dict field) (factor_expr : json) : reply json :=
  match factor_expr with
  | JStr s => Ok (JStr (normalize_str field_map s))
  | other =>
      match field_map with
      | [] => Ok other
      | _ :: _ => Fail AttributeError
      end
  end.

(** The acceptance test of the improvement loop:
    [check_result.get('is', {}).get('checks', [{}])[0].get('value', 0) >= min_sharpe]. *)
Definition primary_score (check_result : json) : reply json :=
  match py_get check_result "is" (JObj []) with
  | Fail e => Fail e
  | Ok is_ =>
      match py_get is_ "checks" (JArr [JObj []]) with
      | Fail e => Fail e
      | Ok checks =>
          match py_index0 checks with
          | Fail e => Fail e
          | Ok first => py_get first "value" (JNum 0)
          end
      end
  end.

Definition meets_target (check_result : json) (min_sharpe : Q) : reply bool :=
  match primary_score check_result with
  | Fail e => Fail e
  | Ok v => py_ge v min_sharpe
  end.

(** [not sim_result or 'alpha' not in sim_result]. *)
Definition lacks_alpha (sim_result : dict json) : bool :=
  match sim_result with [] => true | _ :: _ => false end
  || negb (dict_has "alpha" sim_result).

(** [d[key]]. *)
Definition subscript (d : dict json) (key : string) : M json :=
  match dict_get key d with
  | Some v => ret v
  | None => raise KeyError
  end.

(** How an outer cycle of [mine_factors] ends: [Next] goes to the loop test
    ([continue] or the end of the body), [Stop] is [break]. *)
Inductive ctl : Type := Next | Stop.

(** The log lines the properties mention (the source writes them in
    Chinese): lines 331, 336, 372, 377, 403, 412 and 428 of
    factor_mining.py. *)
Definition seed_info_msg : string := "initial factor expression".
Definition seed_sim_failed_msg : string := "factor simulation failed".
Definition next_info_msg : string := "next factor expression".
Definition next_sim_failed_msg : string := "new factor simulation failed".
Definition found_msg : string := "found a factor meeting the target".
Definition round_error_msg : string := "error in the improvement iteration".
Definition main_error_msg : string := "error in the main mining loop".

Section Controller.

Variable w : world.
Variable cfg : config.

(** [AIClient._make_request]: every failure yields the default response. *)
Definition _make_request : M (dict json) :=
  r <- call (chat_completion w) ;;
  match r with
  | Ok (Some (JObj parsed_response)) => ret parsed_response
  | _ => ret _get_default_response
  end.

(** [AIClient.select_dataset]. *)
Definition ai_select_dataset (info : option (list dataset)) : M (dict json) :=
  response <- _make_request ;;
  if dict_has "selected_dataset" response && dict_has "reason" response
  then ret response
  else
    match info with
    | None => raise KeyError
    | Some [] => raise IndexError
    | Some (d :: _) =>
        ret [("selected_dataset", JStr (ds_id d));
             ("reason", JStr "default choice");
             ("analysis", JObj [("coverage", JStr "default");
                                ("usage", JStr "default");
                                ("alpha_count", JStr "default");
                                ("category", JStr "default")])]
    end.

(** [AIClient.generate_initial_factor] and [AIClient.generate_next_factor]
    after their prompt is built: the ['factor_expression'] of the response,
    or the empty string. *)
Definition ai_generate_factor : M json :=
  response <- _make_request ;;
  match dict_get "factor_expression" response with
  | Some e => ret e
  | None => ret (JStr "")
  end.

(** [FactorMiningSystem.initialize]. *)
Definition initialize : M unit :=
  r <- call (search_datasets_limited w) ;;
  info <- lift r ;;
  modify (set_datasets_info info) ;;
  r <- call (search_operators w) ;;
  ops <- lift r ;;
  modify (set_operators_info ops) ;;
  lg <- gets logger ;;
  if lg
  then match info with
       | None => raise KeyError
       | Some _ => ret tt
       end
  else ret tt.

(** [FactorMiningSystem.select_dataset]. *)
Definition select_dataset : M dataset :=
  emit EvSelectDataset ;;
  info <- gets datasets_info ;;
  selection <- ai_select_dataset info ;;
  match dict_get "selected_dataset" selection with
  | None => raise KeyError
  | Some selected_id =>
      match info with
      | None => raise KeyError
      | Some results =>
          match find (fun d => id_equals (ds_id d) selected_id) results with
          | Some d => modify (set_current_dataset d) ;; ret d
          | None =>
              match results with
              | [] => raise IndexError
              | first :: _ => modify (set_current_dataset first) ;; ret first
              end
          end
      end
  end.

(** [self.wqbs.get_datafields(self.current_dataset['id'])] followed by
    [if not fields_json]: the truth value of a [DataFrame] is a [ValueError]. *)
Definition fetch_fields : M (list field) :=
  cur <- gets current_dataset ;;
  match cur with
  | None => raise TypeError
  | Some d =>
      r <- call (fun n => get_datafields w n (ds_id d)) ;;
      fields_json <- lift r ;;
      match fields_json with
      | EmptyFrame => raise ValueError
      | FieldsJson records => ret records
      end
  end.

(** [FactorMiningSystem.generate_initial_factor]. *)
Definition generate_initial_factor : M json :=
  emit EvGenerateInitial ;;
  fetch_fields ;;
  ai_generate_factor.

(** [FactorMiningSystem.generate_next_factor]. *)
Definition generate_next_factor (previous_factors : list factor_info) : M json :=
  emit (EvGenerateNext previous_factors) ;;
  fetch_fields ;;
  ai_generate_factor.

(** [FactorMiningSystem.simulate_factor]: the result dict, empty on every
    failure. *)
Definition simulate_factor (factor_expr : json) : M (dict json) :=
  try_except
    (fields_data <- fetch_fields ;;
     _log_info "fields fetched" ;;
     let field_map := build_field_map fields_data in
     factor_expr <- lift (normalize_fields field_map factor_expr) ;;
     _log_info "simulation starts" ;;
     emit (EvSubmit factor_expr) ;;
     r <- call (fun n => simulate w n factor_expr) ;;
     resp <- lift r ;;
     if negb (ok resp)
     then _log_error "simulation failed" ;; ret []
     else
       match body resp with
       | None => raise JSONDecodeError
       | Some result =>
           _log_info "simulation response" ;;
           match result with
           | JObj o =>
               if dict_has "alpha" o
               then _log_info "simulation succeeded" ;; ret o
               else _log_error "response lacks alpha" ;; ret []
           | _ => _log_error "response is not a dict" ;; ret []
           end
       end)
    (fun _ => _log_error "error during simulation" ;; ret []).

(** [FactorMiningSystem.check_factor]: the check document, an empty dict on
    every failure.  With a logger, [result.get('status', '')] is evaluated. *)
Definition check_factor (alpha_id : json) : M json :=
  try_except
    (emit (EvCheck alpha_id) ;;
     r <- call (fun n => wqbs_check w n alpha_id) ;;
     resp <- lift r ;;
     if negb (ok resp)
     then ret (JObj [])
     else
       match body resp with
       | None => raise JSONDecodeError
       | Some result =>
           lg <- gets logger ;;
           if lg
           then match result with
                | JObj _ => ret result
                | _ => raise AttributeError
                end
           else ret result
       end)
    (fun _ => ret (JObj [])).

(** [FactorMiningSystem.save_factors]. *)
Definition save_factors (site : save_site) : M unit :=
  snapshot <- gets mined_factors ;;
  emit (EvSave site snapshot) ;;
  r <- call (fun n => write_file w n snapshot) ;;
  match r with
  | Some e => raise e
  | None => ret tt
  end.

(** [len(self.mined_factors)]. *)
Definition count (s : system) : Z := Z.of_nat (length (mined_factors s)).

(** The [try] block of one improvement round (lines 366-409); [true]: the
    block reached [iteration += 1], [false]: it left the loop by [break]. *)
Definition improve_body (dataset : dataset) (min_sharpe : Q) : M bool :=
  previous <- gets mined_factors ;;
  next_factor <- generate_next_factor previous ;;
  if negb (truthy next_factor)
  then _log_warning "next factor generation failed" ;; ret false
  else
    _log_info next_info_msg ;;
    sim_result <- simulate_factor next_factor ;;
    if lacks_alpha sim_result
    then _log_warning next_sim_failed_msg ;; ret false
    else
      alpha_id <- subscript sim_result "alpha" ;;
      check_result <- check_factor alpha_id ;;
      if negb (truthy check_result)
      then _log_warning "new factor check failed" ;; ret false
      else
        append {| expression := next_factor;
                  simulation := sim_result;
                  check := check_result;
                  dataset_of := dataset |} ;;
        hit <- lift (meets_target check_result min_sharpe) ;;
        if hit
        then _log_info found_msg ;; ret false
        else ret true.

(** One improvement round with its handler (lines 365-417): an exception is
    logged and the improvement loop is left. *)
Definition improve_round (dataset : dataset) (min_sharpe : Q) : M bool :=
  try_except
    (improve_body dataset min_sharpe)
    (fun _ => _log_error round_error_msg ;; ret false).

(** The improvement loop (lines 363-417), from [iteration]. *)
Fixpoint improve_loop (fuel : nat) (dataset : dataset) (max_iterations : Z)
    (min_sharpe : Q) (iteration : Z) : M unit :=
  if (iteration <? max_iterations)%Z
  then
    match fuel with
    | O => out_of_fuel
    | S fuel' =>
        go <- improve_round dataset min_sharpe ;;
        if go
        then improve_loop fuel' dataset max_iterations min_sharpe (iteration + 1)
        else ret tt
    end
  else ret tt.

(** Lines 419-421: [if len(self.mined_factors) % save_interval == 0]. *)
Definition checkpoint : M unit :=
  n <- gets count ;;
  if (save_interval cfg =? 0)%Z
  then raise ZeroDivisionError
  else if (n mod save_interval cfg =? 0)%Z
       then save_factors Periodic
       else ret tt.

(** The body of the [try] of an outer cycle (lines 322-425). *)
Definition cycle_body (max_iterations : Z) (min_sharpe : Q) : M ctl :=
  dataset <- select_dataset ;;
  factor_expr <- generate_initial_factor ;;
  if negb (truthy factor_expr)
  then _log_warning "initial factor generation failed" ;; ret Next
  else
    _log_info seed_info_msg ;;
    sim_result <- simulate_factor factor_expr ;;
    if lacks_alpha sim_result
    then _log_warning seed_sim_failed_msg ;; ret Next
    else
      alpha_id <- subscript sim_result "alpha" ;;
      check_result <- check_factor alpha_id ;;
      if negb (truthy check_result)
      then _log_warning "factor check failed" ;; ret Next
      else
        append {| expression := factor_expr;
                  simulation := sim_result;
                  check := check_result;
                  dataset_of := dataset |} ;;
        improve_loop (Z.to_nat max_iterations) dataset max_iterations
          min_sharpe 0 ;;
        checkpoint ;;
        n <- gets count ;;
        if (max_factors cfg <=? n)%Z then ret Stop else ret Next.

(** An outer cycle with its handler (lines 321-432): an exception is logged
    and the loop is left. *)
Definition outer_cycle (max_iterations : Z) (min_sharpe : Q) : M ctl :=
  try_except
    (cycle_body max_iterations min_sharpe)
    (fun _ => _log_error main_error_msg ;; ret Stop).

(** [while len(self.mined_factors) < max_factors] (lines 320-432). *)
Fixpoint mine_loop (fuel : nat) (max_iterations : Z) (min_sharpe : Q) : M unit :=
  n <- gets count ;;
  if (n <? max_factors cfg)%Z
  then
    match fuel with
    | O => out_of_fuel
    | S fuel' =>
        c <- outer_cycle max_iterations min_sharpe ;;
        match c with
        | Next => mine_loop fuel' max_iterations min_sharpe
        | Stop => ret tt
        end
    end
  else ret tt.

(** [FactorMiningSystem.mine_factors(max_iterations, min_sharpe)]; [None]
    takes the value of the configuration. *)
Definition mine_factors (fuel : nat) (max_iterations_arg : option Z)
    (min_sharpe_arg : option Q) : M unit :=
  let max_iter :=
    match max_iterations_arg with
    | Some v => v
    | None => max_iterations cfg
    end in
  let min_sh :=
    match min_sharpe_arg with
    | Some v => v
    | None => min_sharpe cfg
    end in
  initialize ;;
  mine_loop fuel max_iter min_sh ;;
  save_factors Final.

End Controller.

(* ===================================================================== *)
(** ** Vocabulary of the properties, and concrete worlds and runs *)
(* ===================================================================== *)

(** [respects R m]: whatever [m] does (return, raise or run out of fuel),
    the states before and after are related by [R]. *)
Definition respects {A} (R : system -> system -> Prop) (m : M A) : Prop :=
  forall s o s', m s = (o, s') -> R s s'.

(** [total m]: [m] needs no fuel. *)
Definition total {A} (m : M A) : Prop :=
  forall s, fst (m s) <> OutOfFuel.

(** [no_raise m]: no exception leaves [m]. *)
Definition no_raise {A} (m : M A) : Prop :=
  forall s e, fst (m s) <> Raise e.

(** Events that neither touch [mined_factors] nor start an improvement
    round nor write a snapshot. *)
Definition quiet (e : event) : Prop :=
  match e with
  | EvAppend _ | EvSave _ _ | EvGenerateNext _ => False
  | _ => True
  end.

(** A step that leaves [mined_factors] alone and adds quiet events only. *)
Definition quiet_step (s s' : system) : Prop :=
  mined_factors s' = mined_factors s /\
  exists d, trace s' = trace s ++ d /\ Forall quiet d.

(** The records appended by a stretch of the trace, in order. *)
Definition appended (d : list event) : list factor_info :=
  flat_map (fun e => match e with EvAppend r => [r] | _ => [] end) d.

(** A record whose simulation carries an ['alpha'] and whose check document
    is not empty. *)
Definition accepted (r : factor_info) : Prop :=
  dict_has "alpha" (simulation r) = true /\ truthy (check r) = true.

(** Every snapshot written in [d] holds exactly the records present at that
    moment ([acc] at the start of [d]), and a snapshot written inside the
    loop is taken at a count that is a multiple of the interval [k]. *)
Fixpoint saves_in (k : Z) (acc : list factor_info) (d : list event) : Prop :=
  match d with
  | [] => True
  | EvAppend r :: d' => saves_in k (acc ++ [r]) d'
  | EvSave site snap :: d' =>
      snap = acc /\
      (site = Periodic ->
       (Z.of_nat (length snap) mod k = 0)%Z /\ k <> 0%Z) /\
      saves_in k acc d'
  | _ :: d' => saves_in k acc d'
  end.

(** A step that appends accepted records only and writes snapshots as
    [saves_in] says. *)
Definition sound_step (k : Z) (s s' : system) : Prop :=
  exists d,
    trace s' = trace s ++ d /\
    mined_factors s' = mined_factors s ++ appended d /\
    Forall accepted (appended d) /\
    saves_in k (mined_factors s) d.

Definition is_round_start (e : event) : bool :=
  match e with
  | EvGenerateNext _ => true
  | _ => false
  end.

(** The number of improvement rounds started in a stretch of the trace: a
    round starts with the call of [generate_next_factor]. *)
Definition rounds (d : list event) : nat := length (filter is_round_start d).

(** What follows the append of [r] in its round: [tail] are the events after
    it and [go] tells whether the loop goes on. *)
Definition verdict (ms : Q) (r : factor_info) (tail : list event) (go : bool) : Prop :=
  match meets_target (check r) ms with
  | Ok true => tail = [EvLog Info found_msg] /\ go = false
  | Ok false => tail = [] /\ go = true
  | Fail _ => tail = [EvLog Error round_error_msg] /\ go = false
  end.

(** The two ways a round can go: it gives up before recording anything, or
    it records one accepted candidate as its last step but for a log line. *)
Inductive round_result (ds : dataset) (ms : Q) (s : system) :
  outcome bool -> system -> Prop :=
| round_abort d s' :
    trace s' = trace s ++ EvGenerateNext (mined_factors s) :: d ->
    Forall quiet d ->
    mined_factors s' = mined_factors s ->
    round_result ds ms s (Ret false) s'
| round_record d r tail go s' :
    trace s' = trace s ++ EvGenerateNext (mined_factors s) :: d ++ EvAppend r :: tail ->
    Forall quiet d ->
    mined_factors s' = mined_factors s ++ [r] ->
    dataset_of r = ds ->
    accepted r ->
    verdict ms r tail go ->
    round_result ds ms s (Ret go) s'.

(** Events other than a snapshot write. *)
Definition not_save (e : event) : Prop :=
  match e with
  | EvSave _ _ => False
  | _ => True
  end.

(** After the append of a candidate that meets the target nothing follows
    in the loop but the log line that reports it. *)
Fixpoint stops_on_target (ms : Q) (d : list event) : Prop :=
  match d with
  | [] => True
  | EvAppend r :: post =>
      (meets_target (check r) ms = Ok true -> post = [EvLog Info found_msg]) /\
      stops_on_target ms post
  | _ :: post => stops_on_target ms post
  end.

(** [len % save_interval == 0] without the division by zero. *)
Definition periodic_due (cfg : config) (n : Z) : bool :=
  negb (save_interval cfg =? 0)%Z && (n mod save_interval cfg =? 0)%Z.

(** The test of lines 424-425. *)
Definition cap_test (cfg : config) (n : Z) : ctl :=
  if (max_factors cfg <=? n)%Z then Stop else Next.

(** The two ways an outer cycle can go: it ends before recording a seed, or
    it records the seed [r], runs the improvement loop ([dl]), and then
    reaches the snapshot test ([dc]) and the test of the cap. *)
Inductive cycle_result (cfg : config) (mi : Z) (ms : Q) (s : system) :
  outcome ctl -> system -> Prop :=
| cycle_skip o d s' :
    trace s' = trace s ++ d ->
    Forall quiet d ->
    mined_factors s' = mined_factors s ->
    o = Ret Next \/ (exists e, o = Raise e) ->
    cycle_result cfg mi ms s o s'
| cycle_seed o d r dl dc s' :
    trace s' = trace s ++ d ++ EvAppend r :: dl ++ dc ->
    Forall quiet d ->
    accepted r ->
    mined_factors s' = mined_factors s ++ r :: appended dl ->
    (rounds dl <= Z.to_nat mi)%nat ->
    (length (appended dl) <= rounds dl)%nat ->
    stops_on_target ms dl ->
    Forall not_save dl ->
    dc = (if periodic_due cfg (count s')
          then [EvSave Periodic (mined_factors s')] else []) ->
    o <> OutOfFuel ->
    (forall c, o = Ret c -> c = cap_test cfg (count s')) ->
    cycle_result cfg mi ms s o s'.

Definition pv1 : dataset := {| ds_id := "pv1"; ds_name := "Price Volume Data" |}.

Definition fundamental6 : dataset :=
  {| ds_id := "fundamental6"; ds_name := "Company Fundamental Data" |}.

Definition news12 : dataset := {| ds_id := "news12"; ds_name := "News Data" |}.

Definition three_datasets : list dataset := [pv1; fundamental6; news12].

Definition close_field : field :=
  {| field_id := "close"; field_description := "Daily close price" |}.

Definition volume_field : field :=
  {| field_id := "volume"; field_description := "Daily volume" |}.

(** A chat completion that answers both kinds of request. *)
Definition chat_answer (selected : string) (expr : string) : json :=
  JObj [("selected_dataset", JStr selected);
        ("reason", JStr "coverage and usage");
        ("factor_expression", JStr expr)].

(** A check document whose first check has the value [score]. *)
Definition check_document (score : Q) : json :=
  JObj [("status", JStr "COMPLETE");
        ("is", JObj [("checks",
                      JArr [JObj [("name", JStr "LOW_SHARPE");
                                  ("value", JNum score)];
                            JObj [("name", JStr "LOW_FITNESS");
                                  ("value", JNum 1)]])])].

(** A world in which every call succeeds and always answers the same. *)
Definition steady_world (catalog : list dataset) (fields : list field)
    (selected expr : string) (score : Q) : world :=
  {| search_datasets_limited := fun _ => Ok (Some catalog);
     search_operators := fun _ => Ok ["ts_rank"; "ts_mean"; "divide"];
     chat_completion := fun _ => Ok (Some (chat_answer selected expr));
     get_datafields := fun _ _ => Ok (FieldsJson fields);
     simulate := fun _ _ =>
       Ok {| ok := true; body := Some (JObj [("alpha", JStr "alpha-1")]) |};
     wqbs_check := fun _ _ =>
       Ok {| ok := true; body := Some (check_document score) |};
     write_file := fun _ _ => None |}.



Definition is_save (e : event) : bool :=
  match e with EvSave _ _ => true | _ => false end.

Definition is_submit (e : event) : bool :=
  match e with EvSubmit _ => true | _ => false end.

Definition is_select (e : event) : bool :=
  match e with EvSelectDataset => true | _ => false end.

(** The snapshot writes of a trace: where from, and with how many records. *)
Definition snapshot_sizes (tr : list event) : list (save_site * nat) :=
  flat_map (fun e => match e with
                     | EvSave site snap => [(site, length snap)]
                     | _ => []
                     end) tr.

(** A system whose current dataset is [pv1]. *)
Definition ready_system : system := set_current_dataset pv1 (init_system true).

(** The steady world whose generator writes [Close] for the field [close]. *)
Definition casing_world : world :=
  steady_world three_datasets [close_field; volume_field]
    "pv1" "ts_rank(Close, 20)" 0.

(** The steady world whose candidates all score 0. *)
Definition low_score_world : world :=
  steady_world three_datasets [close_field; volume_field]
    "pv1" "ts_rank(close, 20)" 0.

(** The steady world whose candidates all score 2. *)
Definition high_score_world : world :=
  steady_world three_datasets [close_field; volume_field]
    "pv1" "ts_rank(close, 20)" 2.

(** The steady world whose generator picks a dataset the catalog lacks. *)
Definition stray_world : world :=
  steady_world three_datasets [close_field; volume_field]
    "analyst4" "ts_rank(close, 20)" 0.

(** The steady world with an empty catalog. *)
Definition empty_catalog_world : world :=
  steady_world [] [close_field; volume_field] "pv1" "ts_rank(close, 20)" 0.


(** The steady world, except that the simulation response carries no
    ['alpha']. *)
Definition no_alpha_world : world :=
  let w := low_score_world in
  {| search_datasets_limited := search_datasets_limited w;
     search_operators := search_operators w;
     chat_completion := chat_completion w;
     get_datafields := get_datafields w;
     simulate := fun _ _ =>
       Ok {| ok := true;
             body := Some (JObj [("detail", JStr "simulation limit exceeded")]) |};
     wqbs_check := wqbs_check w;
     write_file := write_file w |}.

(** The system after [initialize] in the world without ['alpha']. *)
Definition no_alpha_start : system :=
  snd (initialize no_alpha_world (init_system true)).


(** A configuration with one improvement round and a snapshot every two
    records. *)
Definition small_config : config :=
  {| max_iterations := 1; min_sharpe := 15 # 10; max_factors := 4;
     save_interval := 2 |}.

(** A run with [small_config] in the low-score world: two cycles of two
    records each. *)
Definition small_run : outcome unit * system :=
  mine_factors low_score_world small_config 20 None None (init_system true).

(* ===================================================================== *)
(** ** ExtendedWQBSession.get_datafields (factor_mining.py, lines 16-57) *)
(* ===================================================================== *)

(** A response of the data-fields endpoint: [page.ok], and the ['count'] and
    ['results'] of [page.json()] (each an exception when the body is not JSON
    or lacks the key). *)
Record page : Type := {
  pg_ok : bool;
  pg_count : reply Z;
  pg_results : reply (list field)
}.

(** [self.get(base_url, params=params)] for a dataset id and an offset, at a
    given call number. *)
Definition page_source : Type := nat -> string -> Z -> reply page.

(** [range(start, stop, step)] for a positive [step]. *)
Definition py_range (start stop step : Z) : list Z :=
  map (fun i => (start + Z.of_nat i * step)%Z)
      (seq 0 (Z.to_nat ((stop - start + step - 1) / step))).

Definition first_page_failed_msg : string := "fetching the dataset fields failed".
Definition later_page_failed_msg : string := "fetching a page of dataset fields failed".

(** The loop of lines 47-54 over the remaining offsets: a page that is not
    [ok] is logged and ends the loop ([break]). *)
Fixpoint fetch_pages (get : page_source) (dataset_id : string)
    (offsets : list Z) (all_results : list field) : M (list field) :=
  match offsets with
  | [] => ret all_results
  | offset :: rest =>
      r <- call (fun n => get n dataset_id offset) ;;
      page <- lift r ;;
      if pg_ok page
      then
        results <- lift (pg_results page) ;;
        fetch_pages get dataset_id rest (all_results ++ results)
      else
        _log_error later_page_failed_msg ;;
        ret all_results
  end.

(** Line 57: [pd.DataFrame(all_results).loc[:, [...]].to_json(orient='records')];
    a frame built from no record has no column to select, a [KeyError]. *)
Definition to_json_records (all_results : list field) : M fields_reply :=
  match all_results with
  | [] => raise KeyError
  | _ :: _ => ret (FieldsJson all_results)
  end.

(** [ExtendedWQBSession.get_datafields]. *)
Definition get_datafields_paged (get : page_source) (dataset_id : string)
    : M fields_reply :=
  r <- call (fun n => get n dataset_id 0%Z) ;;
  first_page <- lift r ;;
  if negb (pg_ok first_page)
  then _log_error first_page_failed_msg ;; ret EmptyFrame
  else
    total_count <- lift (pg_count first_page) ;;
    all_results <- lift (pg_results first_page) ;;
    all_results <- fetch_pages get dataset_id (py_range 50 total_count 50) all_results ;;
    to_json_records all_results.

(** A fixed remote listing: the same page for an offset whenever asked. *)
Definition fixed_pages (pages : Z -> page) : page_source :=
  fun _ _ offset => Ok (pages offset).

(** A page that is [ok] and parses. *)
Definition good_page (total : Z) (records : list field) : page :=
  {| pg_ok := true; pg_count := Ok total; pg_results := Ok records |}.

(** A page that is not [ok]. *)
Definition bad_page : page :=
  {| pg_ok := false; pg_count := Fail KeyError; pg_results := Fail KeyError |}.

(** The records of a good page, none for another. *)
Definition records_of (p : page) : list field :=
  match pg_results p with
  | Ok rs => rs
  | Fail _ => []
  end.

(** A listing of 120 fields in three pages, named by their offset. *)
Definition numbered_field (offset : Z) : field :=
  {| field_id := if (offset =? 0)%Z then "close"
                 else if (offset =? 50)%Z then "volume" else "vwap";
     field_description := "" |}.

Definition three_pages (offset : Z) : page :=
  good_page 120 [numbered_field offset].

(** The same listing with the page at offset 100 failing. *)
Definition broken_pages (offset : Z) : page :=
  if (offset =? 100)%Z then bad_page else three_pages offset.

(** A page that is [ok] and whose ['results'] parse. *)
Definition page_good (p : page) : Prop :=
  pg_ok p = true /\ exists rs, pg_results p = Ok rs.


(** The end of [get_datafields] on the records gathered. *)
Definition listing_outcome (all : list field) : outcome fields_reply :=
  match all with
  | [] => Raise KeyError
  | _ :: _ => Ret (FieldsJson all)
  end.


(** The submissions recorded in a trace. *)
Definition submissions (tr : list event) : list event := filter is_submit tr.

(** The steady world whose generator answers with text that is not JSON. *)
Definition mute_world : world :=
  let w := low_score_world in
  {| search_datasets_limited := search_datasets_limited w;
     search_operators := search_operators w;
     chat_completion := fun _ => Ok None;
     get_datafields := get_datafields w;
     simulate := simulate w;
     wqbs_check := wqbs_check w;
     write_file := write_file w |}.

(** The steady world whose field listing always fails (the empty frame). *)
Definition no_fields_world : world :=
  let w := low_score_world in
  {| search_datasets_limited := search_datasets_limited w;
     search_operators := search_operators w;
     chat_completion := chat_completion w;
     get_datafields := fun _ _ => Ok EmptyFrame;
     simulate := simulate w;
     wqbs_check := wqbs_check w;
     write_file := write_file w |}.

(** [s] without its first [n] characters. *)
Fixpoint string_drop (n : nat) (s : string) : string :=
  match n, s with
  | O, _ => s
  | S _, EmptyString => EmptyString
  | S n', String _ s' => string_drop n' s'
  end.


(** Every call of [generate_next_factor] in [d] receives exactly the records
    present at that moment ([acc] at the start of [d]). *)
Fixpoint feeds (acc : list factor_info) (d : list event) : Prop :=
  match d with
  | [] => True
  | EvAppend r :: d' => feeds (acc ++ [r]) d'
  | EvGenerateNext previous :: d' => previous = acc /\ feeds acc d'
  | _ :: d' => feeds acc d'
  end.

(** A step whose calls of [generate_next_factor] are fed as [feeds] says. *)
Definition fed_step (s s' : system) : Prop :=
  exists d,
    trace s' = trace s ++ d /\
    mined_factors s' = mined_factors s ++ appended d /\
    feeds (mined_factors s) d.

(** A step that keeps the current dataset and labels every record it
    appends with [ds]. *)
Definition labelled_step (ds : dataset) (s s' : system) : Prop :=
  current_dataset s' = current_dataset s /\
  exists d,
    trace s' = trace s ++ d /\
    Forall (fun r => dataset_of r = ds) (appended d).

(** A completion from which the generator's methods get no expression: it
    failed, is not a JSON object, or carries no ['factor_expression'] or a
    falsy one. *)
Definition silent (r : reply (option json)) : Prop :=
  match r with
  | Ok (Some (JObj members)) =>
      match dict_get "factor_expression" members with
      | Some e => truthy e = false
      | None => True
      end
  | _ => True
  end.

(** The system after [initialize] in the world whose generator is mute. *)
Definition mute_start : system :=
  snd (initialize mute_world (init_system true)).

(** The system after [initialize] in the low-score world. *)
Definition low_score_start : system :=
  snd (initialize low_score_world (init_system true)).




(** The configuration of config_local.py with a zero [save_interval]. *)
Definition zero_interval_config : config :=
  {| max_iterations := 2; min_sharpe := 15 # 10; max_factors := 100;
     save_interval := 0 |}.

(** The state right after [append r] in [s]. *)
Definition after_append (r : factor_info) (s : system) : system :=
  snd (append r s).


(** The value [mine_factors] uses for an optional argument. *)
Definition or_default {A : Type} (arg : option A) (default : A) : A :=
  match arg with
  | Some v => v
  | None => default
  end.

(** A run with a zero [save_interval] in the low-score world. *)
Definition zero_interval_run : outcome unit * system :=
  mine_factors low_score_world zero_interval_config 20 None None
    (init_system true).


(** The system after [initialize] in the high-score world. *)
Definition high_score_start : system :=
  snd (initialize high_score_world (init_system true)).



(* ===================================================================== *)
(** ** Reasoning about monadic code: relations every step respects *)
(* ===================================================================== *)

Section Respects.

Context (R : system -> system -> Prop) `{HR : !PreOrder R}.

Let R_refl : forall s, R s s := @reflexivity _ R _.
Let R_trans : forall s1 s2 s3, R s1 s2 -> R s2 s3 -> R s1 s3 :=
  @transitivity _ R _.

Lemma respects_ret A (a : A) : respects R (ret a).
Proof. intros s o s' H. inversion H; subst. apply R_refl. Qed.

Lemma respects_raise A e : respects R (@raise A e).
Proof. intros s o s' H. inversion H; subst. apply R_refl. Qed.

Lemma respects_out_of_fuel A : respects R (@out_of_fuel A).
Proof. intros s o s' H. inversion H; subst. apply R_refl. Qed.

Lemma respects_gets A (f : system -> A) : respects R (gets f).
Proof. intros s o s' H. inversion H; subst. apply R_refl. Qed.

Lemma respects_lift A (r : reply A) : respects R (lift r).
Proof. destruct r; [apply respects_ret | apply respects_raise]. Qed.

Lemma respects_bind A B (m : M A) (k : A -> M B) :
  respects R m -> (forall a, respects R (k a)) -> respects R (bind m k).
Proof.
  intros Hm Hk s o s' H. unfold bind in H.
  destruct (m s) as [[a | e |] s1] eqn:E.
  - eapply R_trans; [eapply Hm; eassumption | eapply Hk; eassumption].
  - inversion H; subst. eapply Hm; eassumption.
  - inversion H; subst. eapply Hm; eassumption.
Qed.

Lemma respects_try A (m : M A) (h : exn -> M A) :
  respects R m -> (forall e, respects R (h e)) -> respects R (try_except m h).
Proof.
  intros Hm Hh s o s' H. unfold try_except in H.
  destruct (m s) as [[a | e |] s1] eqn:E.
  - inversion H; subst. eapply Hm; eassumption.
  - eapply R_trans; [eapply Hm; eassumption | eapply Hh; eassumption].
  - inversion H; subst. eapply Hm; eassumption.
Qed.

Lemma respects_modify (f : system -> system) :
  (forall s, R s (f s)) -> respects R (modify f).
Proof. intros Hf s o s' H. inversion H; subst. apply Hf. Qed.

Lemma respects_call A (f : nat -> A) :
  (forall n s, R s (set_clock n s)) -> respects R (call f).
Proof. intros Hf s o s' H. inversion H; subst. apply Hf. Qed.

End Respects.

Lemma total_ret A (a : A) : total (ret a).
Proof. intros s. discriminate. Qed.

Lemma total_raise A e : total (@raise A e).
Proof. intros s. discriminate. Qed.

Lemma total_gets A (f : system -> A) : total (gets f).
Proof. intros s. discriminate. Qed.

Lemma total_modify f : total (modify f).
Proof. intros s. discriminate. Qed.

Lemma total_call A (f : nat -> A) : total (call f).
Proof. intros s. discriminate. Qed.

Lemma total_lift A (r : reply A) : total (lift r).
Proof. destruct r; intros s; discriminate. Qed.

Lemma total_bind A B (m : M A) (k : A -> M B) :
  total m -> (forall a, total (k a)) -> total (bind m k).
Proof.
  intros Hm Hk s. unfold bind. specialize (Hm s).
  destruct (m s) as [[a | e |] s1]; simpl in *.
  - apply Hk.
  - discriminate.
  - congruence.
Qed.

Lemma total_try A (m : M A) (h : exn -> M A) :
  total m -> (forall e, total (h e)) -> total (try_except m h).
Proof.
  intros Hm Hh s. unfold try_except. specialize (Hm s).
  destruct (m s) as [[a | e |] s1]; simpl in *.
  - discriminate.
  - apply Hh.
  - congruence.
Qed.

Lemma no_raise_ret A (a : A) : no_raise (ret a).
Proof. intros s e. discriminate. Qed.

Lemma no_raise_gets A (f : system -> A) : no_raise (gets f).
Proof. intros s e. discriminate. Qed.

Lemma no_raise_modify f : no_raise (modify f).
Proof. intros s e. discriminate. Qed.


Lemma no_raise_bind A B (m : M A) (k : A -> M B) :
  no_raise m -> (forall a, no_raise (k a)) -> no_raise (bind m k).
Proof.
  intros Hm Hk s e. unfold bind. specialize (Hm s).
  destruct (m s) as [[a | e' |] s1]; simpl in *.
  - apply Hk.
  - exfalso. eapply Hm. reflexivity.
  - discriminate.
Qed.

Lemma no_raise_try A (m : M A) (h : exn -> M A) :
  (forall e, no_raise (h e)) -> no_raise (try_except m h).
Proof.
  intros Hh s e. unfold try_except.
  destruct (m s) as [[a | e' |] s1]; simpl.
  - discriminate.
  - apply Hh.
  - discriminate.
Qed.

(** One syntactic step of a proof of [respects], [total] or [no_raise]. *)
Ltac mstep :=
  lazymatch goal with
  | |- respects _ (bind _ _) =>
      apply respects_bind; [ typeclasses eauto | | intros ? ]
  | |- respects _ (try_except _ _) =>
      apply respects_try; [ typeclasses eauto | | intros ? ]
  | |- respects _ (ret _) => apply respects_ret; typeclasses eauto
  | |- respects _ (raise _) => apply respects_raise; typeclasses eauto
  | |- respects _ (gets _) => apply respects_gets; typeclasses eauto
  | |- respects _ (lift _) => apply respects_lift; typeclasses eauto
  | |- respects _ out_of_fuel => apply respects_out_of_fuel; typeclasses eauto
  | |- total (bind _ _) => apply total_bind; [ | intros ? ]
  | |- total (try_except _ _) => apply total_try; [ | intros ? ]
  | |- total (ret _) => apply total_ret
  | |- total (raise _) => apply total_raise
  | |- total (gets _) => apply total_gets
  | |- total (modify _) => apply total_modify
  | |- total (call _) => apply total_call
  | |- total (lift _) => apply total_lift
  | |- no_raise (bind _ _) => apply no_raise_bind; [ | intros ? ]
  | |- no_raise (try_except _ _) => apply no_raise_try; intros ?
  | |- no_raise (ret _) => apply no_raise_ret
  | |- no_raise (gets _) => apply no_raise_gets
  | |- no_raise (modify _) => apply no_raise_modify
  | |- _ (if ?b then _ else _) => destruct b eqn:?
  | |- _ (match ?x with _ => _ end) => destruct x eqn:?
  end.

#[local] Instance quiet_step_preorder : PreOrder quiet_step.
Proof.
  split.
  - intros s. split; [reflexivity | exists []; split; [now rewrite app_nil_r | constructor]].
  - intros s1 s2 s3 [Hm1 [d1 [Ht1 Hq1]]] [Hm2 [d2 [Ht2 Hq2]]]. split.
    + congruence.
    + exists (d1 ++ d2). split.
      * rewrite Ht2, Ht1, app_assoc. reflexivity.
      * apply Forall_app. split; assumption.
Qed.

Lemma quiet_set_clock n s : quiet_step s (set_clock n s).
Proof. split; [reflexivity | exists []; split; [simpl; now rewrite app_nil_r | constructor]]. Qed.

Lemma quiet_set_datasets_info d s : quiet_step s (set_datasets_info d s).
Proof. split; [reflexivity | exists []; split; [simpl; now rewrite app_nil_r | constructor]]. Qed.

Lemma quiet_set_operators_info o s : quiet_step s (set_operators_info o s).
Proof. split; [reflexivity | exists []; split; [simpl; now rewrite app_nil_r | constructor]]. Qed.

Lemma quiet_set_current_dataset d s : quiet_step s (set_current_dataset d s).
Proof. split; [reflexivity | exists []; split; [simpl; now rewrite app_nil_r | constructor]]. Qed.

Lemma quiet_emit e : quiet e -> respects quiet_step (emit e).
Proof.
  intros He. apply respects_modify. intros s. split; [reflexivity |].
  exists [e]. split; [reflexivity | repeat constructor; assumption].
Qed.

Create HintDb quiet.
Create HintDb quiet_ops.
#[local] Hint Resolve quiet_set_clock quiet_set_datasets_info
  quiet_set_operators_info quiet_set_current_dataset : quiet.

(** A proof that an operation is quiet, total or free of exceptions, by
    following its text. *)
Ltac mauto :=
  repeat mstep;
  try solve
    [ apply respects_modify; intros; auto with quiet
    | apply respects_call; intros; auto with quiet
    | apply quiet_emit; exact I
    | auto with quiet quiet_ops ].

Section QuietOperations.

Variable w : world.
Variable cfg : config.

Lemma _make_request_quiet : respects quiet_step (_make_request w).
Proof. unfold _make_request. mauto. Qed.

Lemma _make_request_total : total (_make_request w).
Proof. unfold _make_request. mauto. Qed.

Lemma _make_request_no_raise : no_raise (_make_request w).
Proof.
  intros s e. unfold _make_request, bind, call. simpl.
  destruct (chat_completion w (clock s)) as [[[]|]|]; discriminate.
Qed.

#[local] Hint Resolve _make_request_quiet _make_request_total : quiet_ops.

Lemma ai_select_dataset_quiet info : respects quiet_step (ai_select_dataset w info).
Proof. unfold ai_select_dataset. mauto. Qed.

Lemma ai_select_dataset_total info : total (ai_select_dataset w info).
Proof. unfold ai_select_dataset. mauto. Qed.

Lemma ai_generate_factor_quiet : respects quiet_step (ai_generate_factor w).
Proof. unfold ai_generate_factor. mauto. Qed.

Lemma ai_generate_factor_total : total (ai_generate_factor w).
Proof. unfold ai_generate_factor. mauto. Qed.

Lemma fetch_fields_quiet : respects quiet_step (fetch_fields w).
Proof. unfold fetch_fields. mauto. Qed.

Lemma fetch_fields_total : total (fetch_fields w).
Proof. unfold fetch_fields. mauto. Qed.

#[local] Hint Resolve ai_select_dataset_quiet ai_select_dataset_total
  ai_generate_factor_quiet ai_generate_factor_total
  fetch_fields_quiet fetch_fields_total : quiet_ops.

Lemma initialize_quiet : respects quiet_step (initialize w).
Proof. unfold initialize. mauto. Qed.

Lemma select_dataset_quiet : respects quiet_step (select_dataset w).
Proof. unfold select_dataset. mauto. Qed.

Lemma select_dataset_total : total (select_dataset w).
Proof. unfold select_dataset, emit. mauto. Qed.

Lemma generate_initial_factor_quiet : respects quiet_step (generate_initial_factor w).
Proof. unfold generate_initial_factor. mauto. Qed.

Lemma generate_initial_factor_total : total (generate_initial_factor w).
Proof. unfold generate_initial_factor, emit. mauto. Qed.

Lemma simulate_factor_quiet e : respects quiet_step (simulate_factor w e).
Proof. unfold simulate_factor, _log_info, _log_error. mauto. Qed.

Lemma simulate_factor_total e : total (simulate_factor w e).
Proof. unfold simulate_factor, _log_info, _log_error, emit. mauto. Qed.

Lemma simulate_factor_no_raise e : no_raise (simulate_factor w e).
Proof. unfold simulate_factor, _log_error, emit. mauto. Qed.

Lemma check_factor_quiet a : respects quiet_step (check_factor w a).
Proof. unfold check_factor. mauto. Qed.

Lemma check_factor_total a : total (check_factor w a).
Proof. unfold check_factor, emit. mauto. Qed.

Lemma check_factor_no_raise a : no_raise (check_factor w a).
Proof. unfold check_factor. mauto. Qed.

End QuietOperations.

#[local] Hint Resolve _make_request_quiet ai_select_dataset_quiet
  ai_generate_factor_quiet fetch_fields_quiet initialize_quiet
  select_dataset_quiet generate_initial_factor_quiet simulate_factor_quiet
  check_factor_quiet : quiet_ops.

Lemma respects_weaken A (R R' : system -> system -> Prop) (m : M A) :
  respects R m -> (forall s s', R s s' -> R' s s') -> respects R' m.
Proof. intros Hm Hw s o s' H. apply Hw. eapply Hm. eassumption. Qed.

(* ===================================================================== *)
(** ** What a run may do to the sequence and to the snapshots *)
(* ===================================================================== *)

Lemma appended_app d1 d2 : appended (d1 ++ d2) = appended d1 ++ appended d2.
Proof. unfold appended. apply flat_map_app. Qed.

Lemma appended_quiet d : Forall quiet d -> appended d = [].
Proof.
  induction 1 as [| e d He _ IH]; [reflexivity |].
  destruct e; simpl in *; try contradiction; assumption.
Qed.

Lemma saves_in_app k d1 : forall acc d2,
  saves_in k acc (d1 ++ d2) <->
  saves_in k acc d1 /\ saves_in k (acc ++ appended d1) d2.
Proof.
  induction d1 as [| e d1 IH]; intros acc d2; simpl.
  - rewrite app_nil_r. tauto.
  - destruct e; simpl; try apply IH.
    + rewrite IH, <- app_assoc. reflexivity.
    + rewrite IH. tauto.
Qed.

Lemma saves_in_quiet k d : forall acc, Forall quiet d -> saves_in k acc d.
Proof.
  induction d as [| e d IH]; intros acc H; [exact I |].
  inversion H; subst. destruct e; simpl in *; try contradiction; auto.
Qed.

#[local] Instance sound_step_preorder k : PreOrder (sound_step k).
Proof.
  split.
  - intros s. exists []. simpl. rewrite !app_nil_r. repeat split; constructor.
  - intros s1 s2 s3 (d1 & Ht1 & Hm1 & Ha1 & Hs1) (d2 & Ht2 & Hm2 & Ha2 & Hs2).
    exists (d1 ++ d2). rewrite appended_app. repeat split.
    + rewrite Ht2, Ht1, app_assoc. reflexivity.
    + rewrite Hm2, Hm1, app_assoc. reflexivity.
    + apply Forall_app. split; assumption.
    + apply saves_in_app. split; [assumption | rewrite <- Hm1; assumption].
Qed.

Lemma quiet_sound k s s' : quiet_step s s' -> sound_step k s s'.
Proof.
  intros [Hm (d & Ht & Hq)]. exists d.
  rewrite (appended_quiet d Hq), app_nil_r.
  repeat split; auto using saves_in_quiet.
Qed.

Lemma append_sound k r : accepted r -> respects (sound_step k) (append r).
Proof.
  intros Hr s o s' H. inversion H; subst; clear H.
  exists [EvAppend r]. simpl. repeat split; auto.
Qed.

Lemma save_final_sound w k : respects (sound_step k) (save_factors w Final).
Proof.
  intros s o s' H. unfold save_factors, bind, gets, emit, modify, call in H.
  simpl in H.
  assert (Hs : sound_step k s
            (set_clock (S (clock s))
               (set_trace (trace s ++ [EvSave Final (mined_factors s)]) s))).
  { exists [EvSave Final (mined_factors s)]. simpl. rewrite app_nil_r.
    repeat split; auto; discriminate. }
  destruct (write_file w (clock s) (mined_factors s));
    inversion H; subst; exact Hs.
Qed.

Lemma checkpoint_sound w cfg :
  respects (sound_step (save_interval cfg)) (checkpoint w cfg).
Proof.
  intros s o s' H. unfold checkpoint, bind, gets in H.
  destruct (save_interval cfg =? 0)%Z eqn:Ek.
  - inversion H; subst. reflexivity.
  - apply Z.eqb_neq in Ek.
    destruct (count s mod save_interval cfg =? 0)%Z eqn:Em.
    + apply Z.eqb_eq in Em.
      unfold save_factors, bind, gets, emit, modify, call in H. simpl in H.
      assert (Hs : sound_step (save_interval cfg) s
                (set_clock (S (clock s))
                   (set_trace (trace s ++ [EvSave Periodic (mined_factors s)]) s))).
      { exists [EvSave Periodic (mined_factors s)]. simpl. rewrite app_nil_r.
        repeat split; auto. }
      destruct (write_file w (clock s) (mined_factors s));
        inversion H; subst; exact Hs.
    + inversion H; subst. reflexivity.
Qed.

Lemma generate_next_factor_sound w k previous :
  respects (sound_step k) (generate_next_factor w previous).
Proof.
  unfold generate_next_factor. apply respects_bind; [typeclasses eauto | |].
  - apply respects_modify. intros s. exists [EvGenerateNext previous].
    simpl. rewrite app_nil_r. repeat split; constructor.
  - intros _. eapply respects_weaken; [| apply quiet_sound].
    apply respects_bind; [typeclasses eauto | apply fetch_fields_quiet |].
    intros _. apply ai_generate_factor_quiet.
Qed.

Lemma lacks_alpha_false sim : lacks_alpha sim = false -> dict_has "alpha" sim = true.
Proof.
  unfold lacks_alpha. intros H. apply orb_false_elim in H. destruct H as [_ H].
  now apply negb_false_iff in H.
Qed.

(** A proof that an operation of the controller is a [sound_step], by
    following its text: quiet operations by their lemma, [append] by the
    guards met on the way. *)
Ltac sound_auto :=
  repeat mstep;
  try solve
    [ eapply respects_weaken; [ solve [ eauto with quiet_ops ] | apply quiet_sound ]
    | eapply respects_weaken; [ apply quiet_emit; exact I | apply quiet_sound ]
    | apply append_sound; split; simpl;
      [ apply lacks_alpha_false; assumption
      | apply negb_false_iff; assumption ]
    | apply generate_next_factor_sound
    | eauto ].

Section SoundOperations.

Variable w : world.
Variable cfg : config.

Let k := save_interval cfg.

Lemma improve_body_sound ds ms : respects (sound_step k) (improve_body w ds ms).
Proof.
  unfold improve_body, subscript, _log_warning, _log_info. sound_auto.
Qed.

Lemma improve_round_sound ds ms : respects (sound_step k) (improve_round w ds ms).
Proof.
  unfold improve_round, _log_error.
  pose proof (improve_body_sound ds ms). sound_auto.
Qed.

Lemma improve_loop_sound fuel ds mi ms : forall it,
  respects (sound_step k) (improve_loop w fuel ds mi ms it).
Proof.
  induction fuel as [| fuel IH]; intros it; simpl.
  - sound_auto.
  - pose proof (improve_round_sound ds ms). sound_auto.
Qed.

Lemma cycle_body_sound mi ms : respects (sound_step k) (cycle_body w cfg mi ms).
Proof.
  unfold cycle_body, subscript, _log_warning, _log_info.
  pose proof (fun ds => improve_loop_sound (Z.to_nat mi) ds mi ms 0%Z).
  pose proof (checkpoint_sound w cfg).
  sound_auto.
Qed.

Lemma outer_cycle_sound mi ms : respects (sound_step k) (outer_cycle w cfg mi ms).
Proof.
  unfold outer_cycle, _log_error.
  pose proof (cycle_body_sound mi ms). sound_auto.
Qed.

Lemma mine_loop_sound fuel mi ms : respects (sound_step k) (mine_loop w cfg fuel mi ms).
Proof.
  induction fuel as [| fuel IH]; simpl.
  - sound_auto.
  - pose proof (outer_cycle_sound mi ms). sound_auto.
Qed.

Lemma mine_factors_sound fuel mi ms :
  respects (sound_step k) (mine_factors w cfg fuel mi ms).
Proof.
  unfold mine_factors.
  pose proof (fun a b => mine_loop_sound fuel a b).
  pose proof (save_final_sound w k).
  sound_auto.
Qed.

End SoundOperations.

(* ===================================================================== *)
(** ** The improvement loop, round by round *)
(* ===================================================================== *)

Lemma quiet_step_emit e s1 s2 :
  quiet e -> quiet_step s1 s2 ->
  quiet_step s1 (set_trace (trace s2 ++ [e]) s2).
Proof.
  intros He [Hm (d & Ht & Hq)]. split; [exact Hm |].
  exists (d ++ [e]). simpl. rewrite Ht, app_assoc. split; [reflexivity |].
  apply Forall_app. split; [assumption | repeat constructor; assumption].
Qed.

Lemma generate_next_factor_spec w previous s o s1 :
  generate_next_factor w previous s = (o, s1) ->
  o <> OutOfFuel /\
  quiet_step (set_trace (trace s ++ [EvGenerateNext previous]) s) s1.
Proof.
  intros H.
  assert (Hq : respects quiet_step (fetch_fields w ;; ai_generate_factor w))
    by mauto.
  assert (Ht : total (fetch_fields w ;; ai_generate_factor w))
    by (mstep; [apply fetch_fields_total | apply ai_generate_factor_total]).
  split.
  - intros ->.
    apply (Ht (set_trace (trace s ++ [EvGenerateNext previous]) s)).
    change (generate_next_factor w previous s) with
      ((fetch_fields w ;; ai_generate_factor w)
         (set_trace (trace s ++ [EvGenerateNext previous]) s)) in H.
    rewrite H. reflexivity.
  - eapply Hq. exact H.
Qed.

Lemma round_abort_from_quiet ds ms s s' :
  quiet_step (set_trace (trace s ++ [EvGenerateNext (mined_factors s)]) s) s' ->
  round_result ds ms s (Ret false) s'.
Proof.
  intros [Hm (d & Ht & Hq)]. simpl in *.
  apply round_abort with (d := d); auto.
  rewrite Ht, <- app_assoc. reflexivity.
Qed.

(** Unfold the logging calls and the plumbing of the monad in [H]. *)
Ltac expose H :=
  unfold _log_error, _log_warning, _log_info, emit, modify, ret, raise in H;
  cbv beta iota in H.

Lemma improve_round_spec w ds ms s o s' :
  improve_round w ds ms s = (o, s') -> round_result ds ms s o s'.
Proof.
  intros H.
  unfold improve_round, improve_body, try_except, bind, gets in H.
  destruct (generate_next_factor w (mined_factors s) s) as [[nf | e |] s1] eqn:E1;
    apply generate_next_factor_spec in E1; destruct E1 as [Hf1 Hq1];
    [ | | congruence ].
  2: { expose H. inversion H; subst.
       apply round_abort_from_quiet, quiet_step_emit; [exact I | assumption]. }
  destruct (negb (truthy nf)).
  { expose H. inversion H; subst.
    apply round_abort_from_quiet, quiet_step_emit; [exact I | assumption]. }
  expose H.
  match type of H with context [simulate_factor w nf ?st] =>
    pose proof (quiet_step_emit (EvLog Info next_info_msg) _ _ I Hq1) as Hq2;
    pose proof (simulate_factor_no_raise w nf st) as Hnr;
    pose proof (simulate_factor_total w nf st) as Htot;
    destruct (simulate_factor w nf st) as [[sim | e |] s2] eqn:E2
  end;
  [ | exfalso; eapply Hnr; reflexivity | exfalso; apply Htot; reflexivity ].
  apply simulate_factor_quiet in E2.
  assert (Hq3 : quiet_step (set_trace (trace s ++ [EvGenerateNext (mined_factors s)]) s) s2)
    by (etransitivity; eassumption).
  clear Hnr Htot.
  destruct (lacks_alpha sim) eqn:Ela.
  { expose H. inversion H; subst.
    apply round_abort_from_quiet, quiet_step_emit; [exact I | assumption]. }
  pose proof (lacks_alpha_false _ Ela) as Hal.
  unfold subscript in H. unfold dict_has in Hal.
  destruct (dict_get "alpha" sim) as [alpha_id |] eqn:Eal; [ | discriminate ].
  expose H.
  pose proof (check_factor_no_raise w alpha_id s2) as Hnr;
  pose proof (check_factor_total w alpha_id s2) as Htot;
  destruct (check_factor w alpha_id s2) as [[chk | e |] s3] eqn:E3;
  [ | exfalso; eapply Hnr; reflexivity | exfalso; apply Htot; reflexivity ].
  apply check_factor_quiet in E3.
  assert (Hq4 : quiet_step (set_trace (trace s ++ [EvGenerateNext (mined_factors s)]) s) s3)
    by (etransitivity; eassumption).
  destruct (negb (truthy chk)) eqn:Etr.
  { expose H. inversion H; subst.
    apply round_abort_from_quiet, quiet_step_emit; [exact I | assumption]. }
  apply negb_false_iff in Etr.
  unfold append, bind, lift in H. expose H.
  destruct Hq4 as [Hm4 (d & Ht4 & Hd4)]. simpl in Hm4, Ht4.
  set (r := {| expression := nf; simulation := sim; check := chk; dataset_of := ds |}) in *.
  assert (Hacc : accepted r).
  { split; simpl; [unfold dict_has; now rewrite Eal | assumption]. }
  destruct (meets_target chk ms) as [[|] | e] eqn:Emt; simpl in H;
    inversion H; subst; clear H.
  - apply round_record with (d := d) (r := r) (tail := [EvLog Info found_msg]);
      simpl; auto.
    + rewrite Ht4, <- !app_assoc. reflexivity.
    + rewrite Hm4. reflexivity.
    + unfold verdict. simpl. rewrite Emt. auto.
  - apply round_record with (d := d) (r := r) (tail := []);
      simpl; auto.
    + rewrite Ht4, <- !app_assoc. reflexivity.
    + rewrite Hm4. reflexivity.
    + unfold verdict. simpl. rewrite Emt. auto.
  - apply round_record with (d := d) (r := r) (tail := [EvLog Error round_error_msg]);
      simpl; auto.
    + rewrite Ht4, <- !app_assoc. reflexivity.
    + rewrite Hm4. reflexivity.
    + unfold verdict. simpl. rewrite Emt. auto.
Qed.

Lemma quiet_not_save d : Forall quiet d -> Forall not_save d.
Proof.
  apply Forall_impl. intros e He. destruct e; simpl in *; auto.
Qed.

Lemma rounds_app d1 d2 : rounds (d1 ++ d2) = (rounds d1 + rounds d2)%nat.
Proof. unfold rounds. rewrite filter_app, length_app. reflexivity. Qed.

Lemma rounds_quiet d : Forall quiet d -> rounds d = 0%nat.
Proof.
  induction 1 as [| e d He _ IH]; [reflexivity |].
  destruct e; simpl in *; try contradiction; assumption.
Qed.

Lemma stops_on_target_quiet ms d1 d2 :
  Forall quiet d1 -> stops_on_target ms d2 -> stops_on_target ms (d1 ++ d2).
Proof.
  induction 1 as [| e d He _ IH]; intros H2; [exact H2 |].
  destruct e; simpl in *; try contradiction; auto.
Qed.


Section ImproveLoop.

Variable w : world.
Variable ds : dataset.
Variable mi : Z.
Variable ms : Q.

(** The improvement loop from [iteration = it]: how many rounds it starts,
    what it appends, and that its fuel suffices. *)
Lemma improve_loop_spec : forall fuel it s o s',
  improve_loop w fuel ds mi ms it s = (o, s') ->
  exists d,
    trace s' = trace s ++ d /\
    mined_factors s' = mined_factors s ++ appended d /\
    (rounds d <= Z.to_nat (mi - it))%nat /\
    (length (appended d) <= rounds d)%nat /\
    stops_on_target ms d /\
    Forall not_save d /\
    (forall e, o <> Raise e) /\
    ((Z.to_nat (mi - it) <= fuel)%nat -> o = Ret tt).
Proof.
  induction fuel as [| fuel IH]; intros it s o s' H; simpl in H;
    destruct (it <? mi)%Z eqn:Elt;
    try apply Z.ltb_lt in Elt; try apply Z.ltb_ge in Elt.
  - inversion H; subst. exists []. simpl. rewrite !app_nil_r.
    repeat split; auto; try (cbn; lia); try discriminate.
  - inversion H; subst. exists []. simpl. rewrite !app_nil_r.
    repeat split; auto; try (cbn; lia); try discriminate.
  - unfold bind in H.
    destruct (improve_round w ds ms s) as [ob s1] eqn:E.
    apply improve_round_spec in E.
    inversion E as [d0 s1' Ht Hq Hm | d0 r tail go s1' Ht Hq Hm Hds Hacc Hv];
      subst; clear E.
    + inversion H; subst; clear H.
      exists (EvGenerateNext (mined_factors s) :: d0).
      rewrite Ht, Hm. simpl. rewrite (appended_quiet _ Hq), app_nil_r.
      assert (Hr : rounds (EvGenerateNext (mined_factors s) :: d0) = 1%nat).
      { change (EvGenerateNext (mined_factors s) :: d0)
          with ([EvGenerateNext (mined_factors s)] ++ d0).
        rewrite rounds_app, (rounds_quiet _ Hq). reflexivity. }
      rewrite Hr. repeat split; auto; try lia; try discriminate.
      * simpl. rewrite <- (app_nil_r d0).
        apply stops_on_target_quiet; [assumption | exact I].
      * constructor; [exact I | apply quiet_not_save; assumption].
    + assert (Ha : appended (EvGenerateNext (mined_factors s) :: d0 ++ EvAppend r :: tail) = [r]
                   /\ rounds (EvGenerateNext (mined_factors s) :: d0 ++ EvAppend r :: tail) = 1%nat).
      { change (EvGenerateNext (mined_factors s) :: d0 ++ EvAppend r :: tail)
          with ([EvGenerateNext (mined_factors s)] ++ d0 ++ [EvAppend r] ++ tail).
        rewrite !appended_app, !rounds_app, (appended_quiet _ Hq), (rounds_quiet _ Hq).
        unfold verdict in Hv.
        destruct (meets_target (check r) ms) as [[|] |]; destruct Hv as [-> _];
          split; reflexivity. }
      destruct Ha as [Ha Hr].
      assert (Hns : Forall not_save
                (EvGenerateNext (mined_factors s) :: d0 ++ EvAppend r :: tail)).
      { constructor; [exact I |]. apply Forall_app. split.
        - apply quiet_not_save; assumption.
        - constructor; [exact I |]. unfold verdict in Hv.
          destruct (meets_target (check r) ms) as [[|] |];
            destruct Hv as [-> _]; repeat constructor. }
      destruct go.
      * apply IH in H. destruct H as (d' & Ht' & Hm' & Hr' & Hl' & Hs' & Hns' & Hn' & Hf').
        exists ((EvGenerateNext (mined_factors s) :: d0 ++ EvAppend r :: tail) ++ d').
        rewrite appended_app, rounds_app, Ha, Hr.
        repeat split; auto.
        -- rewrite Ht', Ht, <- !app_assoc. reflexivity.
        -- rewrite Hm', Hm, <- !app_assoc. reflexivity.
        -- lia.
        -- simpl. lia.
        -- unfold verdict in Hv.
           destruct (meets_target (check r) ms) as [[|] |] eqn:Emt;
             destruct Hv as [-> Hgo]; try discriminate.
           simpl. rewrite <- app_assoc.
           apply stops_on_target_quiet; [assumption |].
           simpl. split; [congruence | assumption].
        -- apply Forall_app. split; assumption.
        -- intros Hfuel. apply Hf'. lia.
      * inversion H; subst; clear H.
        exists (EvGenerateNext (mined_factors s) :: d0 ++ EvAppend r :: tail).
        rewrite Ha, Hr.
        repeat split; auto; try lia; try discriminate.
        simpl. apply stops_on_target_quiet; [assumption |].
        unfold verdict in Hv.
        destruct (meets_target (check r) ms) as [[|] |] eqn:Emt;
          destruct Hv as [-> Hgo]; try discriminate; simpl;
          (split; [ try congruence; auto | exact I ]).
  - inversion H; subst. exists []. simpl. rewrite !app_nil_r.
    repeat split; auto; try (cbn; lia); try discriminate.
Qed.

End ImproveLoop.

(* ===================================================================== *)
(** ** One outer cycle *)
(* ===================================================================== *)

Lemma checkpoint_spec w cfg s o s' :
  checkpoint w cfg s = (o, s') ->
  mined_factors s' = mined_factors s /\
  trace s' = trace s ++
             (if periodic_due cfg (count s)
              then [EvSave Periodic (mined_factors s)] else []) /\
  o <> OutOfFuel /\
  (save_interval cfg = 0%Z -> o = Raise ZeroDivisionError) /\
  (periodic_due cfg (count s) = false -> save_interval cfg <> 0%Z -> o = Ret tt).
Proof.
  intros H. unfold checkpoint, bind, gets, periodic_due in *.
  destruct (save_interval cfg =? 0)%Z eqn:Ek; simpl.
  - apply Z.eqb_eq in Ek. inversion H; subst.
    rewrite app_nil_r. repeat split; auto; try discriminate. congruence.
  - apply Z.eqb_neq in Ek.
    destruct (count s mod save_interval cfg =? 0)%Z eqn:Em.
    + unfold save_factors, bind, gets, emit, modify, call in H. simpl in H.
      destruct (write_file w (clock s) (mined_factors s));
        inversion H; subst; simpl; repeat split; auto; try discriminate;
        congruence.
    + inversion H; subst. rewrite app_nil_r.
      repeat split; auto; try discriminate; congruence.
Qed.

Lemma cycle_skip_from_quiet cfg mi ms s o s' :
  quiet_step s s' ->
  o = Ret Next \/ (exists e, o = Raise e) ->
  cycle_result cfg mi ms s o s'.
Proof.
  intros [Hm (d & Ht & Hq)] Ho. apply cycle_skip with (d := d); auto.
Qed.

Lemma cycle_body_spec w cfg mi ms s o s' :
  cycle_body w cfg mi ms s = (o, s') -> cycle_result cfg mi ms s o s'.
Proof.
  intros H. unfold cycle_body, bind in H.
  pose proof (select_dataset_total w s) as Htot.
  destruct (select_dataset w s) as [[ds | e |] s1] eqn:E1;
    [ | | exfalso; apply Htot; reflexivity ]; clear Htot;
    apply select_dataset_quiet in E1.
  2: { inversion H; subst. apply cycle_skip_from_quiet; eauto. }
  pose proof (generate_initial_factor_total w s1) as Htot.
  destruct (generate_initial_factor w s1) as [[fe | e |] s2] eqn:E2;
    [ | | exfalso; apply Htot; reflexivity ]; clear Htot;
    apply generate_initial_factor_quiet in E2;
    assert (Hq2 : quiet_step s s2) by (etransitivity; eassumption).
  2: { inversion H; subst. apply cycle_skip_from_quiet; eauto. }
  destruct (negb (truthy fe)).
  { expose H. inversion H; subst.
    apply cycle_skip_from_quiet; [apply quiet_step_emit; [exact I | assumption] | auto]. }
  expose H.
  match type of H with context [simulate_factor w fe ?st] =>
    pose proof (quiet_step_emit (EvLog Info seed_info_msg) _ _ I Hq2) as Hq3;
    pose proof (simulate_factor_no_raise w fe st) as Hnr;
    pose proof (simulate_factor_total w fe st) as Htot;
    destruct (simulate_factor w fe st) as [[sim | e |] s3] eqn:E3
  end;
  [ | exfalso; eapply Hnr; reflexivity | exfalso; apply Htot; reflexivity ].
  clear Hnr Htot. apply simulate_factor_quiet in E3.
  assert (Hq4 : quiet_step s s3) by (etransitivity; eassumption).
  destruct (lacks_alpha sim) eqn:Ela.
  { expose H. inversion H; subst.
    apply cycle_skip_from_quiet; [apply quiet_step_emit; [exact I | assumption] | auto]. }
  pose proof (lacks_alpha_false _ Ela) as Hal.
  unfold subscript in H. unfold dict_has in Hal.
  destruct (dict_get "alpha" sim) as [alpha_id |] eqn:Eal; [ | discriminate ].
  expose H.
  pose proof (check_factor_no_raise w alpha_id s3) as Hnr;
  pose proof (check_factor_total w alpha_id s3) as Htot;
  destruct (check_factor w alpha_id s3) as [[chk | e |] s4] eqn:E4;
  [ | exfalso; eapply Hnr; reflexivity | exfalso; apply Htot; reflexivity ].
  clear Hnr Htot. apply check_factor_quiet in E4.
  assert (Hq5 : quiet_step s s4) by (etransitivity; eassumption).
  destruct (negb (truthy chk)) eqn:Etr.
  { expose H. inversion H; subst.
    apply cycle_skip_from_quiet; [apply quiet_step_emit; [exact I | assumption] | auto]. }
  apply negb_false_iff in Etr.
  unfold append, bind, gets in H. expose H.
  destruct Hq5 as [Hm5 (d & Ht5 & Hd5)].
  set (r := {| expression := fe; simulation := sim; check := chk; dataset_of := ds |}) in *.
  assert (Hacc : accepted r).
  { split; simpl; [unfold dict_has; now rewrite Eal | assumption]. }
  match type of H with context [improve_loop w _ ds mi ms 0%Z ?st] =>
    destruct (improve_loop w (Z.to_nat mi) ds mi ms 0%Z st) as [ol s5] eqn:E5
  end.
  apply improve_loop_spec in E5.
  destruct E5 as (dl & Htl & Hml & Hrl & Hll & Hsl & Hnl & _ & Hfl).
  simpl in Htl, Hml.
  rewrite Z.sub_0_r in Hrl, Hfl. specialize (Hfl (Nat.le_refl _)). subst ol.
  destruct (checkpoint w cfg s5) as [oc s6] eqn:E6.
  apply checkpoint_spec in E6. destruct E6 as (Hm6 & Ht6 & Hf6 & Hz6 & Hn6).
  assert (Hc : count s5 = count s6) by (unfold count; now rewrite Hm6).
  rewrite Hc, <- Hm6 in Ht6.
  assert (Htr : trace s6 =
                trace s ++ d ++ EvAppend r :: dl ++
                (if periodic_due cfg (count s6)
                 then [EvSave Periodic (mined_factors s6)] else [])).
  { rewrite Ht6, Htl, Ht5, <- !app_assoc. reflexivity. }
  assert (Hmn : mined_factors s6 = mined_factors s ++ r :: appended dl).
  { rewrite Hm6, Hml, Hm5, <- app_assoc. reflexivity. }
  destruct oc as [[] | e |]; [ | | congruence ].
  - unfold cap_test.
    destruct (max_factors cfg <=? count s6)%Z eqn:Ecap;
      inversion H; subst; clear H;
      eapply cycle_seed; eauto; try discriminate;
      unfold cap_test; rewrite Ecap; congruence.
  - inversion H; subst; clear H.
    eapply cycle_seed; eauto; try discriminate.
Qed.

(* ===================================================================== *)
(** ** Field-name casing in [simulate_factor] *)
(* ===================================================================== *)

Example replace_examples :
  replace "ab" "X" "ababa" = "XXa" /\
  replace "aa" "b" "aaa" = "ba" /\
  replace "" "-" "ab" = "-a-b-" /\
  replace "close" "close" "rank(Close)" = "rank(Close)".
Proof. repeat split; reflexivity. Qed.

Example lower_contains_examples :
  lower "Ts_Rank(Close, 20)" = "ts_rank(close, 20)" /\
  contains "close" "rank(close)" = true /\
  contains "close" "rank(Close)" = false /\
  contains "" "" = true.
Proof. repeat split; reflexivity. Qed.

Example build_field_map_example :
  build_field_map
    [{| field_id := "Close"; field_description := "first" |};
     volume_field;
     {| field_id := "CLOSE"; field_description := "second" |}]
  = [("close", {| field_id := "CLOSE"; field_description := "second" |});
     ("volume", volume_field)].
Proof. reflexivity. Qed.

Example meets_target_examples :
  meets_target (check_document 2) (15 # 10) = Ok true /\
  meets_target (check_document 1) (15 # 10) = Ok false /\
  meets_target (JObj [("status", JStr "COMPLETE")]) (15 # 10) = Ok false /\
  meets_target (JObj [("is", JObj [("checks", JArr [])])]) (15 # 10)
    = Fail IndexError /\
  meets_target (JArr [JNum 1]) (15 # 10) = Fail AttributeError.
Proof. repeat split; reflexivity. Qed.

Lemma replace_scan_absent old new : forall s,
  contains old s = false -> replace_scan old new 0 s = s.
Proof.
  induction s as [| c s IH]; intros H; [reflexivity |].
  cbn [contains] in H. apply orb_false_elim in H. destruct H as [Hp Hc].
  cbn [replace_scan]. rewrite Hp. f_equal. apply IH. exact Hc.
Qed.

(** [str.replace] changes nothing when the pattern does not occur, with the
    case of its letters as it is. *)
Lemma replace_absent old new s :
  contains old s = false -> replace old new s = s.
Proof.
  destruct old as [| c old]; intros H.
  - destruct s; discriminate.
  - apply replace_scan_absent. exact H.
Qed.

(** With one field in the catalog, an expression that does not contain the
    lower-case form of its identifier is submitted as it is, whatever other
    casing of the identifier it contains. *)
Lemma normalize_str_single f s :
  contains (lower (field_id f)) s = false ->
  normalize_str (build_field_map [f]) s = s.
Proof.
  intros H. unfold build_field_map, normalize_str. simpl.
  destruct (contains (lower (field_id f)) (lower s)); [| reflexivity].
  apply replace_absent. exact H.
Qed.

(** C1 (evaluation at the failing input).  For the catalog field [close] and
    the generated expression [ts_rank(Close, 20)], the casing loop leaves the
    expression as it is and [simulate_factor] submits [Close], not the
    catalog's [close]; the loop only rewrites occurrences that are already
    lower-case, as the converse input shows. *)
Theorem simulate_factor_keeps_foreign_casing :
  contains "close" (lower "ts_rank(Close, 20)") = true /\
  normalize_str (build_field_map [close_field; volume_field]) "ts_rank(Close, 20)"
    = "ts_rank(Close, 20)" /\
  filter is_submit
    (trace (snd (simulate_factor casing_world (JStr "ts_rank(Close, 20)") ready_system)))
    = [EvSubmit (JStr "ts_rank(Close, 20)")] /\
  normalize_str
    (build_field_map [{| field_id := "Close"; field_description := "" |}])
    "ts_rank(close, 20)"
    = "ts_rank(Close, 20)".
Proof. repeat split; vm_compute; reflexivity. Qed.

(* ===================================================================== *)
(** ** Dataset selection *)
(* ===================================================================== *)





Example select_dataset_follows_a_known_choice :
  fst (select_dataset low_score_world
         (set_datasets_info (Some [fundamental6; pv1; news12]) (init_system true)))
    = Ret pv1.
Proof. reflexivity. Qed.

(** C10.  With an empty catalog [select_dataset] raises [IndexError] and
    selects nothing: from the controller's own fallback when the generator's
    answer is well formed, and from the default path of
    [AIClient.select_dataset] when it is not. *)
Theorem select_dataset_empty_catalog (w : world) (s : system) :
  datasets_info s = Some [] ->
  (exists s', select_dataset w s = (Raise IndexError, s') /\
              current_dataset s' = current_dataset s) /\
  (forall st response st',
      _make_request w st = (Ret response, st') ->
      dict_has "selected_dataset" response && dict_has "reason" response = false ->
      ai_select_dataset w (Some []) st = (Raise IndexError, st')) /\
  (forall st response st',
      _make_request w st = (Ret response, st') ->
      dict_has "selected_dataset" response && dict_has "reason" response = true ->
      ai_select_dataset w (Some []) st = (Ret response, st')).
Proof.
  intros Hinfo. split; [| split].
  - unfold select_dataset, bind, emit, modify, gets.
    cbn [datasets_info set_trace]. rewrite Hinfo.
    unfold ai_select_dataset, bind.
    destruct (_make_request w (set_trace (trace s ++ [EvSelectDataset]) s))
      as [[response | e |] s1] eqn:E.
    + assert (Hc : current_dataset s1 = current_dataset s).
      { unfold _make_request, bind, call in E. cbn in E.
        destruct (chat_completion w (clock s)) as [[[]|]|];
          inversion E; reflexivity. }
      destruct (dict_has "selected_dataset" response && dict_has "reason" response)
        eqn:Ewf.
      * apply andb_prop in Ewf. destruct Ewf as [Hs _].
        unfold dict_has in Hs. unfold ret.
        destruct (dict_get "selected_dataset" response); [| discriminate].
        simpl. eexists. split; [reflexivity | exact Hc].
      * eexists. split; [reflexivity | exact Hc].
    + exfalso. eapply (_make_request_no_raise w). rewrite E. reflexivity.
    + exfalso. eapply (_make_request_total w). rewrite E. reflexivity.
  - intros st response st' E Ewf. unfold ai_select_dataset, bind.
    rewrite E, Ewf. reflexivity.
  - intros st response st' E Ewf. unfold ai_select_dataset, bind.
    rewrite E, Ewf. reflexivity.
Qed.

(** C10, on the steady world with an empty catalog. *)
Lemma select_dataset_empty_catalog_witness :
  exists s',
    select_dataset empty_catalog_world
      (set_datasets_info (Some []) (init_system true)) = (Raise IndexError, s') /\
    current_dataset s' = None.
Proof.
  exact (proj1 (select_dataset_empty_catalog empty_catalog_world
                  (set_datasets_info (Some []) (init_system true)) eq_refl)).
Defined.

(* ===================================================================== *)
(** ** The improvement loop: bound and early exit *)
(* ===================================================================== *)

Lemma rounds_cycle_delta d r dl dc :
  Forall quiet d -> Forall not_save dl ->
  (dc = [] \/ exists snap, dc = [EvSave Periodic snap]) ->
  rounds (d ++ EvAppend r :: dl ++ dc) = rounds dl.
Proof.
  intros Hd _ Hdc.
  change (d ++ EvAppend r :: dl ++ dc) with (d ++ [EvAppend r] ++ dl ++ dc).
  rewrite !rounds_app, (rounds_quiet d Hd).
  destruct Hdc as [-> | [snap ->]]; cbn; lia.
Qed.

(** C7.  Started as [mine_factors] starts it (iteration 0, after a seed was
    recorded), the improvement loop returns, having started at most
    [max_iterations] rounds; so an outer cycle as a whole starts at most
    [max_iterations] rounds. *)
Theorem improvement_rounds_bounded
    (w : world) (cfg : config) (ds : dataset) (mi : Z) (ms : Q) (s : system) :
  (let r := improve_loop w (Z.to_nat mi) ds mi ms 0 s in
   fst r = Ret tt /\
   exists d, trace (snd r) = trace s ++ d /\
             (Z.of_nat (rounds d) <= Z.max 0 mi)%Z) /\
  (let r := cycle_body w cfg mi ms s in
   exists d, trace (snd r) = trace s ++ d /\
             (Z.of_nat (rounds d) <= Z.max 0 mi)%Z).
Proof.
  split.
  - destruct (improve_loop w (Z.to_nat mi) ds mi ms 0 s) as [o s'] eqn:E.
    apply improve_loop_spec in E.
    destruct E as (d & Ht & _ & Hr & _ & _ & _ & _ & Hf).
    rewrite Z.sub_0_r in Hr, Hf. simpl. split.
    + apply Hf. apply Nat.le_refl.
    + exists d. split; [exact Ht | lia].
  - destruct (cycle_body w cfg mi ms s) as [o s'] eqn:E.
    apply cycle_body_spec in E. simpl.
    inversion E as [o' d s'' Ht Hq Hm Ho
                   | o' d r dl dc s'' Ht Hq Hacc Hm Hr Hl Hs Hns Hdc Hf Hc];
      subst o' s''; clear E.
    + exists d. split; [exact Ht |]. rewrite (rounds_quiet d Hq). lia.
    + exists (d ++ EvAppend r :: dl ++ dc). split; [exact Ht |].
      rewrite (rounds_cycle_delta d r dl dc Hq Hns).
      * lia.
      * rewrite Hdc. destruct (periodic_due cfg (count s')); eauto.
Qed.




(* ===================================================================== *)
(** ** Records are appended only after simulation and check succeeded *)
(* ===================================================================== *)

Lemma lacks_alpha_true sim : dict_has "alpha" sim = false -> lacks_alpha sim = true.
Proof. intros H. unfold lacks_alpha. rewrite H. apply orb_true_r. Qed.

(** C9.  Every record of [mined_factors] has a simulation result with an
    ['alpha'] and a non-empty check document; and when the simulation result
    has no ['alpha'], the outer cycle (for a seed) or the improvement loop
    (for a revision) is left with [mined_factors] as it was. *)
Theorem records_need_simulation_and_check
    (w : world) (cfg : config) (mi : Z) (ms : Q) :
  (forall fuel mi_arg ms_arg lg,
      Forall accepted
        (mined_factors (snd (mine_factors w cfg fuel mi_arg ms_arg (init_system lg))))) /\
  (forall s ds s1 fe s2 sim s3,
      select_dataset w s = (Ret ds, s1) ->
      generate_initial_factor w s1 = (Ret fe, s2) ->
      truthy fe = true ->
      simulate_factor w fe (set_trace (trace s2 ++ [EvLog Info seed_info_msg]) s2)
        = (Ret sim, s3) ->
      dict_has "alpha" sim = false ->
      cycle_body w cfg mi ms s =
        (Ret Next, set_trace (trace s3 ++ [EvLog Warning seed_sim_failed_msg]) s3) /\
      mined_factors s3 = mined_factors s /\
      appended (trace s3) = appended (trace s)) /\
  (forall s ds nf s1 sim s2,
      generate_next_factor w (mined_factors s) s = (Ret nf, s1) ->
      truthy nf = true ->
      simulate_factor w nf (set_trace (trace s1 ++ [EvLog Info next_info_msg]) s1)
        = (Ret sim, s2) ->
      dict_has "alpha" sim = false ->
      improve_round w ds ms s =
        (Ret false, set_trace (trace s2 ++ [EvLog Warning next_sim_failed_msg]) s2) /\
      mined_factors s2 = mined_factors s /\
      forall fuel it, (it < mi)%Z ->
        improve_loop w (S fuel) ds mi ms it s =
          (Ret tt, set_trace (trace s2 ++ [EvLog Warning next_sim_failed_msg]) s2)).
Proof.
  split; [| split].
  - intros fuel mi_arg ms_arg lg.
    destruct (mine_factors w cfg fuel mi_arg ms_arg (init_system lg)) as [o s'] eqn:E.
    apply mine_factors_sound in E.
    destruct E as (d & _ & Hm & Ha & _). simpl in *. rewrite Hm. exact Ha.
  - intros s ds s1 fe s2 sim s3 H1 H2 H3 H4 H5.
    assert (Hq : quiet_step s s3).
    { apply select_dataset_quiet in H1. apply generate_initial_factor_quiet in H2.
      apply simulate_factor_quiet in H4.
      etransitivity; [exact H1 |]. etransitivity; [exact H2 |].
      etransitivity; [| exact H4].
      apply quiet_step_emit; [exact I | reflexivity]. }
    split; [| split].
    + unfold cycle_body, bind. rewrite H1, H2, H3.
      cbv beta iota delta [negb _log_info emit modify].
      rewrite H4.
      rewrite (lacks_alpha_true _ H5). reflexivity.
    + apply Hq.
    + destruct Hq as [_ (d & Ht & Hd)].
      rewrite Ht, appended_app, (appended_quiet d Hd), app_nil_r. reflexivity.
  - intros s ds nf s1 sim s2 G1 G2 G3 G4.
    assert (Hround : improve_round w ds ms s =
              (Ret false, set_trace (trace s2 ++ [EvLog Warning next_sim_failed_msg]) s2)).
    { unfold improve_round, improve_body, try_except, bind, gets.
      rewrite G1, G2.
      cbv beta iota delta [negb _log_info emit modify].
      rewrite G3.
      rewrite (lacks_alpha_true _ G4). reflexivity. }
    split; [exact Hround | split].
    + apply generate_next_factor_spec in G1. destruct G1 as [_ [Hm1 _]].
      apply simulate_factor_quiet in G3. destruct G3 as [Hm3 _].
      simpl in *. congruence.
    + intros fuel it Hlt. apply Z.ltb_lt in Hlt.
      cbn [improve_loop]. rewrite Hlt. unfold bind. rewrite Hround. reflexivity.
Qed.

(** C9, on a cycle whose simulation response has no ['alpha']. *)
Lemma records_need_simulation_and_check_witness :
  fst (cycle_body no_alpha_world FACTOR_MINING_CONFIG 10 (15 # 10) no_alpha_start)
    = Ret Next /\
  mined_factors
    (snd (cycle_body no_alpha_world FACTOR_MINING_CONFIG 10 (15 # 10) no_alpha_start))
    = [].
Proof.
  pose (s1 := snd (select_dataset no_alpha_world no_alpha_start)).
  pose (s2 := snd (generate_initial_factor no_alpha_world s1)).
  pose (s3 := snd (simulate_factor no_alpha_world (JStr "ts_rank(close, 20)")
                     (set_trace (trace s2 ++ [EvLog Info seed_info_msg]) s2))).
  destruct (proj1 (proj2 (records_need_simulation_and_check
                            no_alpha_world FACTOR_MINING_CONFIG 10 (15 # 10)))
              no_alpha_start pv1 s1 (JStr "ts_rank(close, 20)") s2 [] s3)
    as [Hc [Hm _]].
  - vm_compute. reflexivity.
  - vm_compute. reflexivity.
  - reflexivity.
  - vm_compute. reflexivity.
  - reflexivity.
  - rewrite Hc. split; [reflexivity | vm_compute; reflexivity].
Defined.

(* ===================================================================== *)
(** ** The outer loop: cap, exceptions, snapshots *)
(* ===================================================================== *)

Lemma outer_cycle_no_raise w cfg mi ms : no_raise (outer_cycle w cfg mi ms).
Proof. unfold outer_cycle, _log_error, emit. repeat mstep. Qed.



(** What one outer cycle with its handler does to the count. *)
Lemma outer_cycle_count w cfg mi ms s c s' :
  outer_cycle w cfg mi ms s = (c, s') ->
  (count s <= count s' <= count s + 1 + Z.max 0 mi)%Z.
Proof.
  intros H. unfold outer_cycle, try_except in H.
  destruct (cycle_body w cfg mi ms s) as [o s1] eqn:E.
  apply cycle_body_spec in E.
  assert (Hc : (count s <= count s1 <= count s + 1 + Z.max 0 mi)%Z).
  { inversion E as [o' d s'' Ht Hq Hm Ho
                   | o' d r dl dc s'' Ht Hq Hacc Hm Hr Hl Hs Hns Hdc Hf Hcap];
      subst o' s''; unfold count.
    - rewrite Hm. lia.
    - rewrite Hm, length_app. cbn [length]. lia. }
  destruct o as [a | e |]; inversion H; subst; exact Hc.
Qed.

(** However a run goes, the count stays within [max_factors] plus the
    records one improvement loop can add. *)
Lemma mine_loop_count_bound w cfg mi ms : forall fuel s o s',
  mine_loop w cfg fuel mi ms s = (o, s') ->
  (count s' <= Z.max (count s) (max_factors cfg + Z.max 0 mi))%Z.
Proof.
  induction fuel as [| fuel IH]; intros s o s' H; simpl in H;
    unfold bind, gets in H;
    destruct (count s <? max_factors cfg)%Z eqn:Elt;
    try (inversion H; subst; lia).
  apply Z.ltb_lt in Elt.
  destruct (outer_cycle w cfg mi ms s) as [[c | e |] s1] eqn:E;
    pose proof (outer_cycle_count _ _ _ _ _ _ _ E) as Hc;
    try (inversion H; subst; lia).
  destruct c.
  - apply IH in H. lia.
  - inversion H; subst. lia.
Qed.

Lemma save_factors_count w site s :
  count (snd (save_factors w site s)) = count s.
Proof.
  unfold save_factors, bind, gets, emit, modify, call. cbv beta iota.
  destruct (write_file w _ _); reflexivity.
Qed.

(** The same bound for a whole run from [__init__]. *)
Lemma mine_factors_count_bound w cfg fuel mi ms lg :
  (count (snd (mine_factors w cfg fuel (Some mi) (Some ms) (init_system lg)))
   <= Z.max 0 (max_factors cfg + Z.max 0 mi))%Z.
Proof.
  unfold mine_factors, bind.
  destruct (initialize w (init_system lg)) as [[[] | e |] s1] eqn:E1;
    apply initialize_quiet in E1; destruct E1 as [Hm1 _];
    try (simpl; unfold count; rewrite Hm1; simpl; lia).
  destruct (mine_loop w cfg fuel mi ms s1) as [[[] | e |] s2] eqn:E2;
    apply mine_loop_count_bound in E2;
    assert (Hc1 : count s1 = 0%Z) by (unfold count; rewrite Hm1; reflexivity);
    try (simpl; lia).
  rewrite (save_factors_count w Final s2). lia.
Qed.

(** C2 (evaluation at the failing input).  With the configuration of
    config_local.py (cap 100, 10 improvement rounds) and a world in which
    every candidate is recorded and scores below the target, the run ends
    with 110 records: the last cycle starts at 99, and its improvement loop
    appends ten records past the cap. *)
Theorem cap_exceeded_by_improvement_loop :
  let r := mine_factors low_score_world FACTOR_MINING_CONFIG 20 None None
             (init_system true) in
  fst r = Ret tt /\
  count (snd r) = 110%Z /\
  max_factors FACTOR_MINING_CONFIG = 100%Z /\
  length (appended (trace (snd r))) = 110%nat.
Proof. vm_compute. repeat split; reflexivity. Qed.




Lemma saves_in_split k d : forall acc pre site snap post,
  saves_in k acc d ->
  d = pre ++ EvSave site snap :: post ->
  snap = acc ++ appended pre /\
  (site = Periodic -> (Z.of_nat (length snap) mod k = 0)%Z /\ k <> 0%Z).
Proof.
  induction d as [| e d IH]; intros acc pre site snap post Hs Hd.
  - destruct pre; discriminate.
  - destruct pre as [| e' pre]; simpl in Hd; inversion Hd; subst; clear Hd.
    + simpl in Hs. destruct Hs as (-> & Hp & _).
      simpl. rewrite app_nil_r. split; [reflexivity | exact Hp].
    + destruct e'; simpl in Hs |- *;
        try (eapply IH; [exact Hs | reflexivity]).
      * destruct (IH (acc ++ [r]) pre site snap post Hs eq_refl) as [H1 H2].
        split; [rewrite H1, <- app_assoc; reflexivity | exact H2].
      * destruct Hs as (_ & _ & Hs). eapply IH; [exact Hs | reflexivity].
Qed.

Lemma quiet_no_save d site snap : Forall quiet d -> ~ In (EvSave site snap) d.
Proof.
  intros Hq Hin. rewrite Forall_forall in Hq. exact (Hq _ Hin).
Qed.

Lemma quiet_no_append d r : Forall quiet d -> ~ In (EvAppend r) d.
Proof.
  intros Hq Hin. rewrite Forall_forall in Hq. exact (Hq _ Hin).
Qed.

Lemma not_save_no_save d site snap : Forall not_save d -> ~ In (EvSave site snap) d.
Proof.
  intros Hq Hin. rewrite Forall_forall in Hq. exact (Hq _ Hin).
Qed.

(** C4 (evaluation at the failing input).  With the configuration of
    config_local.py (interval 10, 10 improvement rounds) and a world in which
    every candidate is recorded and scores below the target, each cycle adds
    eleven records and the test of lines 419-421, which runs once at the end
    of a cycle, sees the counts 11, 22, ..., 110.  The run appends 110
    records and passes the counts 10, 20, ..., 100 inside improvement loops
    without a snapshot: the only snapshot written inside the loop holds 110
    records. *)
Theorem snapshot_missed_at_multiples :
  let r := mine_factors low_score_world FACTOR_MINING_CONFIG 20 None None
             (init_system true) in
  save_interval FACTOR_MINING_CONFIG = 10%Z /\
  fst r = Ret tt /\
  length (appended (trace (snd r))) = 110%nat /\
  snapshot_sizes (trace (snd r)) = [(Periodic, 110%nat); (Final, 110%nat)].
Proof. vm_compute. repeat split; reflexivity. Qed.

(** The half of the checkpoint policy that the code keeps.  In every run
    each snapshot holds exactly the records appended so far, and a snapshot
    written inside the loop is taken at a count that is a multiple of the
    interval (which is then not zero): no snapshot is written inside the loop
    while the count is strictly between multiples. *)
Theorem periodic_snapshot_policy
    (w : world) (cfg : config) (fuel : nat) (mi : option Z) (ms : option Q)
    (lg : bool) (pre : list event) (site : save_site)
    (snap : list factor_info) (post : list event) :
  trace (snd (mine_factors w cfg fuel mi ms (init_system lg)))
    = pre ++ EvSave site snap :: post ->
  snap = appended pre /\
  (site = Periodic ->
   (Z.of_nat (length snap) mod save_interval cfg = 0)%Z /\
   save_interval cfg <> 0%Z).
Proof.
  intros Htrace.
  destruct (mine_factors w cfg fuel mi ms (init_system lg)) as [o s'] eqn:E.
  apply mine_factors_sound in E.
  destruct E as (d & Ht & _ & _ & Hs). simpl in Ht, Hs, Htrace.
  rewrite Ht in Htrace.
  apply (saves_in_split _ _ [] pre site snap post Hs Htrace).
Qed.

(** The same on the first snapshot of the small run, written after two
    records. *)
Lemma periodic_snapshot_policy_witness :
  let tr := trace (snd small_run) in
  let snap := firstn 2 (mined_factors (snd small_run)) in
  snap = appended (firstn 19 tr) /\
  (Periodic = Periodic ->
   (Z.of_nat (length snap) mod save_interval small_config = 0)%Z /\
   save_interval small_config <> 0%Z).
Proof.
  intros tr snap.
  refine (periodic_snapshot_policy low_score_world small_config 20 None None
            true (firstn 19 tr) Periodic snap (skipn 20 tr) _).
  vm_compute. reflexivity.
Defined.

(** Where the snapshot test sits: a cycle that recorded a seed writes a
    snapshot exactly when the count at its end is a multiple of the
    interval, a cycle that recorded none writes no snapshot, and no cycle
    writes the final one. *)
Lemma cycle_snapshot_test (w : world) (cfg : config) mi ms s o s' d :
  cycle_body w cfg mi ms s = (o, s') ->
  trace s' = trace s ++ d ->
  ((exists snap, In (EvSave Periodic snap) d) <->
   ((exists r, In (EvAppend r) d) /\ periodic_due cfg (count s') = true)) /\
  (forall snap, ~ In (EvSave Final snap) d).
Proof.
  intros Hrun Htrace.
  apply cycle_body_spec in Hrun.
  inversion Hrun as [o' d0 s'' Ht Hq Hm Ho
                    | o' d0 r dl dc s'' Ht Hq Hacc Hm Hr Hl Hs Hns Hdc Hf Hcap];
    subst o' s''; clear Hrun;
    rewrite Ht in Htrace; apply app_inv_head in Htrace; subst d.
  - split; [split |].
    + intros [snap Hin]. exfalso. exact (quiet_no_save _ _ _ Hq Hin).
    + intros [[r Hin] _]. exfalso. exact (quiet_no_append _ _ Hq Hin).
    + intros snap. apply quiet_no_save. exact Hq.
  - split; [split |].
    + intros [snap Hin]. split.
      * exists r. apply in_or_app. right. left. reflexivity.
      * apply in_app_or in Hin. destruct Hin as [Hin | [Hin | Hin]].
        -- exfalso. exact (quiet_no_save _ _ _ Hq Hin).
        -- discriminate.
        -- apply in_app_or in Hin. destruct Hin as [Hin | Hin].
           ++ exfalso. exact (not_save_no_save _ _ _ Hns Hin).
           ++ destruct (periodic_due cfg (count s')); [reflexivity |].
              subst dc. destruct Hin.
    + intros [_ Hdue]. exists (mined_factors s').
      rewrite Hdue in Hdc. subst dc.
      apply in_or_app. right. right. apply in_or_app. right. left. reflexivity.
    + intros snap Hin.
      apply in_app_or in Hin. destruct Hin as [Hin | [Hin | Hin]].
      * exact (quiet_no_save _ _ _ Hq Hin).
      * discriminate.
      * apply in_app_or in Hin. destruct Hin as [Hin | Hin].
        -- exact (not_save_no_save _ _ _ Hns Hin).
        -- subst dc. destruct (periodic_due cfg (count s'));
             [destruct Hin as [Hin | []]; discriminate | destruct Hin].
Qed.

(* ===================================================================== *)
(** ** The final snapshot *)
(* ===================================================================== *)




(* ===================================================================== *)
(** ** The paged field listing *)
(* ===================================================================== *)

Lemma py_range_length_50 total :
  length (py_range 50 total 50) = Z.to_nat ((total - 1) / 50).
Proof.
  unfold py_range. rewrite length_map, length_seq. f_equal.
  replace (total - 50 + 50 - 1)%Z with (total - 1)%Z by lia. reflexivity.
Qed.

Lemma fetch_pages_clock get id : forall offsets acc s o s',
  fetch_pages get id offsets acc s = (o, s') ->
  (clock s <= clock s' <= clock s + length offsets)%nat.
Proof.
  induction offsets as [| off rest IH]; intros acc s o s' H; simpl in H.
  - inversion H; subst. simpl. lia.
  - unfold bind, call in H. cbv beta iota in H.
    destruct (get (clock s) id off) as [p | e]; simpl in H.
    + destruct (pg_ok p).
      * destruct (pg_results p) as [rs | e]; simpl in H.
        -- apply IH in H. simpl in *. lia.
        -- inversion H; subst. simpl. lia.
      * inversion H; subst. simpl. lia.
    + inversion H; subst. simpl. lia.
Qed.

(** X1.  [get_datafields] asks for the first page and then for at most one
    page per further offset 50, 100, ... below the ['count'] of the first
    page: never more than max(1, ceil(count / 50)) requests, whatever the
    pages answer. *)
Theorem get_datafields_request_bound
    (get : page_source) (id : string) (s : system) (first : page) (total : Z)
    (o : outcome fields_reply) (s' : system) :
  get (clock s) id 0%Z = Ok first ->
  pg_count first = Ok total ->
  get_datafields_paged get id s = (o, s') ->
  (1 <= clock s' - clock s <= Z.to_nat (Z.max 1 ((total + 49) / 50)))%nat.
Proof.
  intros Hfirst Hcount H.
  unfold get_datafields_paged, bind, call in H. cbv beta iota in H.
  rewrite Hfirst in H. simpl in H.
  destruct (pg_ok first); simpl in H.
  - rewrite Hcount in H. simpl in H.
    destruct (pg_results first) as [rs | e]; simpl in H.
    + assert (Hdiv : ((total - 1) / 50 < (total + 49) / 50)%Z).
      { replace (total + 49)%Z with ((total - 1) + 1 * 50)%Z by lia.
        rewrite Z.div_add by lia. lia. }
      destruct (fetch_pages get id (py_range 50 total 50) rs (set_clock (S (clock s)) s))
        as [[l | e |] s1] eqn:E;
        apply fetch_pages_clock in E; rewrite py_range_length_50 in E;
        cbn [clock set_clock] in E.
      * destruct l; inversion H; subst;
          revert E Hdiv; generalize ((total - 1) / 50)%Z ((total + 49) / 50)%Z;
          intros; lia.
      * inversion H; subst;
          revert E Hdiv; generalize ((total - 1) / 50)%Z ((total + 49) / 50)%Z;
          intros; lia.
      * inversion H; subst;
          revert E Hdiv; generalize ((total - 1) / 50)%Z ((total + 49) / 50)%Z;
          intros; lia.
    + inversion H; subst. cbn [clock set_clock].
      generalize ((total + 49) / 50)%Z. intros; lia.
  - inversion H; subst. cbn [clock set_clock set_trace].
    generalize ((total + 49) / 50)%Z. intros; lia.
Qed.

(** X1, on the listing of 120 fields: three requests. *)
Lemma get_datafields_request_bound_witness :
  (1 <= clock (snd (get_datafields_paged (fixed_pages three_pages) "pv1"
                      (init_system true))) - 0
     <= Z.to_nat (Z.max 1 ((120 + 49) / 50)))%nat.
Proof.
  apply (get_datafields_request_bound (fixed_pages three_pages) "pv1"
           (init_system true) (three_pages 0) 120
           (fst (get_datafields_paged (fixed_pages three_pages) "pv1" (init_system true)))).
  - reflexivity.
  - reflexivity.
  - apply surjective_pairing.
Defined.

Lemma fetch_pages_fixed_good pages id : forall offsets acc s,
  (forall off, In off offsets -> page_good (pages off)) ->
  exists s',
    fetch_pages (fixed_pages pages) id offsets acc s =
      (Ret (acc ++ flat_map (fun off => records_of (pages off)) offsets), s') /\
    trace s' = trace s /\
    clock s' = (clock s + length offsets)%nat.
Proof.
  induction offsets as [| off rest IH]; intros acc s Hgood.
  - exists s. simpl. rewrite app_nil_r. repeat split; lia.
  - destruct (Hgood off (or_introl eq_refl)) as [Hok [rs Hrs]].
    destruct (IH (acc ++ rs) (set_clock (S (clock s)) s)) as (s' & Hrun & Ht & Hc).
    { intros o Ho. apply Hgood. right. exact Ho. }
    exists s'. cbn [fetch_pages]. unfold bind, call. cbv beta iota.
    change (fixed_pages pages (clock s) id off) with (Ok (pages off)).
    cbn [lift ret]. rewrite Hok, Hrs. cbn [lift ret].
    rewrite Hrun. cbn [flat_map]. unfold records_of at 2. rewrite Hrs.
    rewrite app_assoc. repeat split; [exact Ht | cbn in Hc |- *; lia].
Qed.

Lemma fetch_pages_fixed_stop pages id good bad rest acc s :
  (forall off, In off good -> page_good (pages off)) ->
  pg_ok (pages bad) = false ->
  exists s',
    fetch_pages (fixed_pages pages) id (good ++ bad :: rest) acc s =
      (Ret (acc ++ flat_map (fun off => records_of (pages off)) good), s') /\
    trace s' = trace s ++ [EvLog Error later_page_failed_msg] /\
    clock s' = (clock s + length good + 1)%nat.
Proof.
  revert acc s. induction good as [| off good IH]; intros acc s Hgood Hbad.
  - eexists. cbn [app fetch_pages]. unfold bind, call. cbv beta iota.
    change (fixed_pages pages (clock s) id bad) with (Ok (pages bad)).
    cbn [lift ret]. rewrite Hbad.
    unfold _log_error, emit, modify, ret. cbv beta iota.
    cbn [flat_map]. rewrite app_nil_r.
    repeat split. cbn. lia.
  - destruct (Hgood off (or_introl eq_refl)) as [Hok [rs Hrs]].
    destruct (IH (acc ++ rs) (set_clock (S (clock s)) s)) as (s' & Hrun & Ht & Hc).
    { intros o Ho. apply Hgood. right. exact Ho. }
    { exact Hbad. }
    exists s'. cbn [app fetch_pages]. unfold bind, call. cbv beta iota.
    change (fixed_pages pages (clock s) id off) with (Ok (pages off)).
    cbn [lift ret]. rewrite Hok, Hrs. cbn [lift ret].
    rewrite Hrun. cbn [flat_map]. unfold records_of at 2. rewrite Hrs.
    rewrite app_assoc. repeat split; [exact Ht | cbn in Hc |- *; lia].
Qed.

Lemma to_json_records_outcome all s :
  to_json_records all s = (listing_outcome all, s).
Proof. destruct all; reflexivity. Qed.

(** X2.  Against a remote listing whose pages all answer, [get_datafields]
    returns the records of the pages at offsets 0, 50, 100, ... below the
    ['count'] of the first page, in that order, and logs nothing; with no
    record at all it raises [KeyError]. *)
Theorem get_datafields_complete
    (pages : Z -> page) (id : string) (s : system) (total : Z) :
  pg_count (pages 0%Z) = Ok total ->
  (forall off, In off (0%Z :: py_range 50 total 50) -> page_good (pages off)) ->
  let r := get_datafields_paged (fixed_pages pages) id s in
  fst r = listing_outcome
            (flat_map (fun off => records_of (pages off))
                      (0%Z :: py_range 50 total 50)) /\
  trace (snd r) = trace s.
Proof.
  intros Hcount Hgood.
  destruct (Hgood 0%Z (or_introl eq_refl)) as [Hok [rs Hrs]].
  destruct (fetch_pages_fixed_good pages id (py_range 50 total 50) rs
              (set_clock (S (clock s)) s)) as (s' & Hrun & Ht & _).
  { intros off Hoff. apply Hgood. right. exact Hoff. }
  unfold get_datafields_paged, bind, call. cbv beta iota zeta.
  change (fixed_pages pages (clock s) id 0%Z) with (Ok (pages 0%Z)).
  cbn [lift ret]. rewrite Hok, Hcount, Hrs. cbn [negb lift ret].
  rewrite Hrun. rewrite to_json_records_outcome.
  cbn [flat_map fst snd]. unfold records_of at 2. rewrite Hrs.
  split; [reflexivity | exact Ht].
Qed.

(** X2, on the listing of 120 fields in three pages. *)
Lemma get_datafields_complete_witness :
  let r := get_datafields_paged (fixed_pages three_pages) "pv1" (init_system true) in
  fst r = listing_outcome
            (flat_map (fun off => records_of (three_pages off))
                      (0%Z :: py_range 50 120 50)) /\
  trace (snd r) = [].
Proof.
  apply (get_datafields_complete three_pages "pv1" (init_system true) 120).
  - reflexivity.
  - intros off Hoff. split; [reflexivity | eexists; reflexivity].
Defined.

(** The listing that a failed later page cuts short, with the end of line 57
    on whatever was gathered. *)
Lemma get_datafields_cut_short
    (pages : Z -> page) (id : string) (s : system) (total : Z)
    (good : list Z) (bad : Z) (rest : list Z) :
  pg_count (pages 0%Z) = Ok total ->
  py_range 50 total 50 = good ++ bad :: rest ->
  (forall off, In off (0%Z :: good) -> page_good (pages off)) ->
  pg_ok (pages bad) = false ->
  let r := get_datafields_paged (fixed_pages pages) id s in
  fst r = listing_outcome
            (flat_map (fun off => records_of (pages off)) (0%Z :: good)) /\
  trace (snd r) = trace s ++ [EvLog Error later_page_failed_msg] /\
  clock (snd r) = (clock s + length good + 2)%nat.
Proof.
  intros Hcount Hrange Hgood Hbad.
  destruct (Hgood 0%Z (or_introl eq_refl)) as [Hok [rs Hrs]].
  destruct (fetch_pages_fixed_stop pages id good bad rest rs
              (set_clock (S (clock s)) s)) as (s' & Hrun & Ht & Hc).
  { intros off Hoff. apply Hgood. right. exact Hoff. }
  { exact Hbad. }
  unfold get_datafields_paged, bind, call. cbv beta iota zeta.
  change (fixed_pages pages (clock s) id 0%Z) with (Ok (pages 0%Z)).
  cbn [lift ret]. rewrite Hok, Hcount, Hrs. cbn [negb lift ret].
  rewrite Hrange, Hrun. rewrite to_json_records_outcome.
  cbn [flat_map fst snd]. unfold records_of at 2. rewrite Hrs.
  repeat split; [exact Ht | cbn in Hc; lia].
Qed.

(** X3.  When a page after the first is not [ok], [get_datafields] logs the
    failure and asks for no further page.  If the pages before it held at
    least one record, it returns the records gathered so far as an ordinary
    result: the caller gets a shortened listing, not an exception and not
    the empty frame.  If they held none, line 57 raises [KeyError] as it does
    on a complete listing without records. *)
Theorem get_datafields_partial
    (pages : Z -> page) (id : string) (s : system) (total : Z)
    (good : list Z) (bad : Z) (rest : list Z) :
  pg_count (pages 0%Z) = Ok total ->
  py_range 50 total 50 = good ++ bad :: rest ->
  (forall off, In off (0%Z :: good) -> page_good (pages off)) ->
  pg_ok (pages bad) = false ->
  let gathered := flat_map (fun off => records_of (pages off)) (0%Z :: good) in
  let r := get_datafields_paged (fixed_pages pages) id s in
  (gathered <> [] -> fst r = Ret (FieldsJson gathered)) /\
  (gathered = [] -> fst r = Raise KeyError) /\
  trace (snd r) = trace s ++ [EvLog Error later_page_failed_msg] /\
  clock (snd r) = (clock s + length good + 2)%nat.
Proof.
  intros Hcount Hrange Hgood Hbad gathered r.
  destruct (get_datafields_cut_short pages id s total good bad rest
              Hcount Hrange Hgood Hbad) as (Ho & Ht & Hc).
  fold gathered in Ho. fold r in Ho, Ht, Hc.
  split; [| split; [| split; [exact Ht | exact Hc]]].
  - intros Hne. rewrite Ho. destruct gathered; [contradiction | reflexivity].
  - intros He. rewrite Ho, He. reflexivity.
Qed.

(** X3, on the listing of 120 fields whose third page fails: the hundred
    records of the first two pages come back. *)
Lemma get_datafields_partial_witness :
  let gathered := flat_map (fun off => records_of (broken_pages off)) [0%Z; 50%Z] in
  let r := get_datafields_paged (fixed_pages broken_pages) "pv1" (init_system true) in
  gathered <> [] /\
  fst r = Ret (FieldsJson gathered) /\
  trace (snd r) = [] ++ [EvLog Error later_page_failed_msg] /\
  clock (snd r) = (0 + 1 + 2)%nat.
Proof.
  intros gathered r.
  assert (Hne : gathered <> []) by (vm_compute; discriminate).
  destruct (get_datafields_partial broken_pages "pv1" (init_system true) 120
              [50%Z] 100%Z [] eq_refl eq_refl) as (Hsome & _ & Ht & Hc).
  - intros off [<- | [<- | []]]; (split; [reflexivity | eexists; reflexivity]).
  - reflexivity.
  - split; [exact Hne |]. split; [exact (Hsome Hne) |]. split; [exact Ht | exact Hc].
Defined.

(** The other case, on a listing that announces 120 fields but whose first
    page holds none and whose second page fails. *)
Example get_datafields_partial_empty :
  fst (get_datafields_paged
         (fixed_pages (fun off => if (off =? 0)%Z then good_page 120 [] else bad_page))
         "pv1" (init_system true))
  = Raise KeyError.
Proof. reflexivity. Qed.

(* ===================================================================== *)
(** ** The field map and the casing loop *)
(* ===================================================================== *)

Lemma dict_get_set_same V k (v : V) d : dict_get k (dict_set k v d) = Some v.
Proof.
  induction d as [| [k' v'] d IH]; simpl.
  - now rewrite String.eqb_refl.
  - destruct (String.eqb k k') eqn:E; simpl; rewrite E; [reflexivity | exact IH].
Qed.

Lemma dict_get_set_other V k k' (v : V) d :
  String.eqb k' k = false -> dict_get k' (dict_set k v d) = dict_get k' d.
Proof.
  intros Hne. induction d as [| [k0 v0] d IH]; simpl.
  - now rewrite Hne.
  - destruct (String.eqb k k0) eqn:E; simpl.
    + apply String.eqb_eq in E. subst k0. now rewrite Hne.
    + destruct (String.eqb k' k0); [reflexivity | exact IH].
Qed.

Lemma dict_set_keys V k (v : V) d :
  In k (map fst d) -> map fst (dict_set k v d) = map fst d.
Proof.
  induction d as [| [k0 v0] d IH]; simpl; [intros [] |].
  intros Hin. destruct (String.eqb k k0) eqn:E; simpl; [reflexivity |].
  f_equal. apply IH. destruct Hin as [-> | Hin]; [| exact Hin].
  rewrite String.eqb_refl in E. discriminate.
Qed.

Lemma dict_set_keys_new V k (v : V) d :
  ~ In k (map fst d) -> map fst (dict_set k v d) = map fst d ++ [k].
Proof.
  induction d as [| [k0 v0] d IH]; simpl; [reflexivity |].
  intros Hnin. destruct (String.eqb k k0) eqn:E.
  - apply String.eqb_eq in E. subst. exfalso. apply Hnin. now left.
  - simpl. f_equal. apply IH. intros H. apply Hnin. now right.
Qed.

Lemma dict_set_nodup V k (v : V) d :
  NoDup (map fst d) -> NoDup (map fst (dict_set k v d)).
Proof.
  intros Hd. destruct (in_dec string_dec k (map fst d)) as [Hin | Hnin].
  - now rewrite dict_set_keys.
  - rewrite dict_set_keys_new by assumption.
    apply NoDup_app; [exact Hd | repeat constructor; intros [] | ].
    intros x Hx [<- | []]. contradiction.
Qed.

Lemma field_map_fold_get k fs : forall m,
  dict_get k (fold_left (fun m f => dict_set (lower (field_id f)) f m) fs m) =
  match find (fun f => String.eqb k (lower (field_id f))) (rev fs) with
  | Some f => Some f
  | None => dict_get k m
  end.
Proof.
  induction fs as [| f fs IH]; intros m; [reflexivity |].
  cbn [fold_left rev]. rewrite IH.
  assert (Hfind : forall l,
    find (fun f0 => String.eqb k (lower (field_id f0))) (l ++ [f]) =
    match find (fun f0 => String.eqb k (lower (field_id f0))) l with
    | Some x => Some x
    | None => if String.eqb k (lower (field_id f)) then Some f else None
    end).
  { induction l as [| a l IHl]; simpl; [reflexivity |].
    destruct (String.eqb k (lower (field_id a))); [reflexivity | exact IHl]. }
  rewrite Hfind.
  destruct (find _ (rev fs)); [reflexivity |].
  destruct (String.eqb k (lower (field_id f))) eqn:E.
  - apply String.eqb_eq in E. subst k. apply dict_get_set_same.
  - apply dict_get_set_other. exact E.
Qed.

Lemma field_map_fold_nodup fs : forall m,
  NoDup (map fst m) ->
  NoDup (map fst (fold_left (fun m f => dict_set (lower (field_id f)) f m) fs m)).
Proof.
  induction fs as [| f fs IH]; intros m Hm; [exact Hm |].
  cbn [fold_left]. apply IH. apply dict_set_nodup. exact Hm.
Qed.

(** X4.  The [field_map] of [simulate_factor] has one entry per lower-cased
    field identifier, and looking up a lower-cased identifier gives the last
    field of the listing that carries it: an earlier field whose identifier
    differs only in case is shadowed. *)
Theorem field_map_last_wins (fields_data : list field) (k : string) :
  NoDup (map fst (build_field_map fields_data)) /\
  dict_get k (build_field_map fields_data) =
    find (fun f => String.eqb k (lower (field_id f))) (rev fields_data).
Proof.
  unfold build_field_map. split.
  - apply field_map_fold_nodup. constructor.
  - rewrite field_map_fold_get. destruct (find _ _); reflexivity.
Qed.

Lemma replace_scan_skip old new : forall s k,
  replace_scan old new k s = replace_scan old new 0 (string_drop k s).
Proof.
  induction s as [| c s IH]; intros k.
  - destruct k; reflexivity.
  - destruct k as [| k]; [reflexivity |]. cbn [replace_scan string_drop]. apply IH.
Qed.

Lemma prefix_split old : forall s,
  String.prefix old s = true -> s = (old ++ string_drop (String.length old) s)%string.
Proof.
  induction old as [| a old IH]; intros s H; [reflexivity |].
  destruct s as [| c s]; simpl in H; [discriminate |].
  destruct (ascii_dec a c) as [-> |]; [| discriminate].
  simpl. f_equal. apply IH. exact H.
Qed.

Lemma string_drop_length k : forall s,
  (String.length (string_drop k s) <= String.length s)%nat.
Proof.
  induction k as [| k IH]; intros s; [simpl; lia |].
  destruct s as [| c s]; simpl; [lia |]. specialize (IH s). lia.
Qed.

Lemma replace_scan_same old : forall n s,
  (String.length s <= n)%nat -> old <> EmptyString ->
  replace_scan old old 0 s = s.
Proof.
  induction n as [| n IH]; intros s Hlen Hne.
  - destruct s; [reflexivity | simpl in Hlen; lia].
  - destruct s as [| c s]; [reflexivity |].
    cbn [replace_scan].
    destruct (String.prefix old (String c s)) eqn:Ep.
    + rewrite replace_scan_skip.
      rewrite IH; [| | exact Hne].
      * apply prefix_split in Ep.
        destruct old as [| a old]; [contradiction |].
        rewrite Ep at 1. cbn [String.length string_drop Nat.sub].
        rewrite Nat.sub_0_r. reflexivity.
      * pose proof (string_drop_length (String.length old - 1) s).
        simpl in Hlen. lia.
    + f_equal. apply IH; [simpl in Hlen; lia | exact Hne].
Qed.

Lemma replace_same old s : replace old old s = s.
Proof.
  destruct old as [| a old].
  - simpl. induction s as [| c s IH]; simpl; [reflexivity | now rewrite IH].
  - apply (replace_scan_same _ (String.length s)); [lia | discriminate].
Qed.

(** X5.  When every identifier of the field listing is already lower-case,
    the casing loop of [simulate_factor] changes no expression, whatever
    casing the expression uses: each replacement puts an identifier in place
    of itself. *)
Theorem casing_loop_identity_on_lower_case_catalog
    (fields_data : list field) (factor_expr : string) :
  Forall (fun f => lower (field_id f) = field_id f) fields_data ->
  normalize_str (build_field_map fields_data) factor_expr = factor_expr.
Proof.
  intros Hlow.
  assert (Hmap : Forall (fun item : string * field =>
                           fst item = field_id (snd item) /\
                           In (snd item) fields_data)
                   (build_field_map fields_data)).
  { unfold build_field_map.
    assert (Hgen : forall fs m,
      (forall f, In f fs -> In f fields_data) ->
      Forall (fun item : string * field =>
                fst item = field_id (snd item) /\ In (snd item) fields_data) m ->
      Forall (fun item : string * field =>
                fst item = field_id (snd item) /\ In (snd item) fields_data)
        (fold_left (fun m f => dict_set (lower (field_id f)) f m) fs m)).
    { induction fs as [| f fs IH]; intros m Hsub Hm; [exact Hm |].
      cbn [fold_left]. apply IH; [intros x Hx; apply Hsub; now right |].
      assert (Hf : In f fields_data) by (apply Hsub; now left).
      assert (Hlf : lower (field_id f) = field_id f).
      { rewrite Forall_forall in Hlow. apply Hlow. exact Hf. }
      clear IH. induction m as [| [k0 v0] m IHm]; simpl.
      - repeat constructor; simpl; auto.
      - inversion Hm; subst.
        destruct (String.eqb (lower (field_id f)) k0) eqn:E.
        + apply String.eqb_eq in E. constructor; [| assumption].
          simpl. split; [congruence | exact Hf].
        + constructor; [assumption | apply IHm; assumption]. }
    apply Hgen; [auto | constructor]. }
  unfold normalize_str.
  revert factor_expr. induction Hmap as [| [k f] m [Hk _] _ IH]; intros expr.
  - reflexivity.
  - cbn [fold_left]. simpl in Hk. subst k.
    rewrite replace_same.
    destruct (contains (field_id f) (lower expr)); apply IH.
Qed.

(** X5, on the two fields of the concrete worlds. *)
Lemma casing_loop_identity_on_lower_case_catalog_witness :
  normalize_str (build_field_map [close_field; volume_field])
    "divide(CLOSE, Volume)" = "divide(CLOSE, Volume)".
Proof.
  apply (casing_loop_identity_on_lower_case_catalog [close_field; volume_field]).
  repeat constructor.
Defined.

(* ===================================================================== *)
(** ** Dataset selection: results and errors *)
(* ===================================================================== *)

Lemma _make_request_state w s :
  snd (_make_request w s) = set_clock (S (clock s)) s /\
  exists response, fst (_make_request w s) = Ret response.
Proof.
  unfold _make_request, bind, call. cbv beta iota.
  destruct (chat_completion w (clock s)) as [[[]|]|]; simpl; eauto.
Qed.

Lemma ai_select_dataset_spec w info s o s' :
  ai_select_dataset w info s = (o, s') ->
  s' = set_clock (S (clock s)) s /\
  match o with
  | Ret selection =>
      dict_has "selected_dataset" selection = true /\
      dict_has "reason" selection = true
  | Raise e =>
      (e = IndexError /\ info = Some []) \/ (e = KeyError /\ info = None)
  | OutOfFuel => False
  end.
Proof.
  intros H. unfold ai_select_dataset, bind in H.
  destruct (_make_request_state w s) as [Hs [response Hr]].
  destruct (_make_request w s) as [o1 s1]. simpl in Hs, Hr. subst o1 s1.
  destruct (dict_has "selected_dataset" response && dict_has "reason" response)
    eqn:Ewf.
  - inversion H; subst. split; [reflexivity |]. apply andb_prop in Ewf. exact Ewf.
  - destruct info as [[| d l] |]; inversion H; subst; split; auto.
Qed.

Lemma select_dataset_cases (w : world) (s : system)
    (o : outcome dataset) (s' : system) :
  select_dataset w s = (o, s') ->
  datasets_info s' = datasets_info s /\
  match o with
  | Ret d =>
      current_dataset s' = Some d /\
      exists results, datasets_info s = Some results /\ In d results
  | Raise e =>
      current_dataset s' = current_dataset s /\
      ((e = IndexError /\ datasets_info s = Some []) \/
       (e = KeyError /\ datasets_info s = None))
  | OutOfFuel => False
  end.
Proof.
  intros H. unfold select_dataset, bind, emit, modify, gets in H.
  cbv beta iota in H. cbn [datasets_info set_trace] in H.
  destruct (ai_select_dataset w (datasets_info s)
              (set_trace (trace s ++ [EvSelectDataset]) s)) as [o1 s1] eqn:E.
  apply ai_select_dataset_spec in E. destruct E as [Hs1 Ho1]. subst s1.
  destruct o1 as [selection | e |]; [| | contradiction].
  - destruct Ho1 as [Hsel _]. unfold dict_has in Hsel.
    destruct (dict_get "selected_dataset" selection) as [sid |]; [| discriminate].
    destruct (datasets_info s) as [results |] eqn:Einfo.
    + destruct (find (fun d => id_equals (ds_id d) sid) results) as [d |] eqn:Ef.
      * inversion H; subst. simpl. split; [exact Einfo |]. split; [reflexivity |].
        exists results. split; [reflexivity |]. apply find_some in Ef. apply Ef.
      * destruct results as [| first rest].
        -- inversion H; subst. simpl. split; [exact Einfo |]. auto.
        -- inversion H; subst. simpl. split; [exact Einfo |]. split; [reflexivity |].
           exists (first :: rest). split; [reflexivity | now left].
    + inversion H; subst. simpl. split; [exact Einfo |]. auto.
  - inversion H; subst. simpl. split; [reflexivity |]. split; [reflexivity |].
    exact Ho1.
Qed.

(** X6.  Whatever the generator answers, a dataset that [select_dataset]
    returns is an entry of the catalog and has become the current dataset,
    and the catalog is left as it was: the generator can steer the choice
    inside the catalog only. *)
Theorem select_dataset_returns_catalog_entry (w : world) (s : system)
    (d : dataset) (s' : system) :
  select_dataset w s = (Ret d, s') ->
  current_dataset s' = Some d /\
  datasets_info s' = datasets_info s /\
  exists results, datasets_info s = Some results /\ In d results.
Proof.
  intros H. apply select_dataset_cases in H.
  destruct H as [Hinfo [Hcur Hin]]. auto.
Qed.

(** X6, on the scenario of a stray choice in a catalog of three. *)
Lemma select_dataset_returns_catalog_entry_witness :
  let s := set_datasets_info (Some three_datasets) (init_system true) in
  let r := select_dataset stray_world s in
  fst r = Ret pv1 /\
  current_dataset (snd r) = Some pv1 /\
  datasets_info (snd r) = Some three_datasets /\
  exists results, datasets_info s = Some results /\ In pv1 results.
Proof.
  intros s r. split; [reflexivity |].
  apply (select_dataset_returns_catalog_entry stray_world s pv1 (snd r)).
  reflexivity.
Defined.

Lemma find_first_match A (f : A -> bool) before x after :
  (forall y, In y before -> f y = false) -> f x = true ->
  find f (before ++ x :: after) = Some x.
Proof.
  intros Hb Hx. induction before as [| b before IH]; simpl.
  - now rewrite Hx.
  - rewrite (Hb b (or_introl eq_refl)). apply IH.
    intros y Hy. apply Hb. now right.
Qed.

(** X7.  When the generator names an identifier that the catalog carries,
    [select_dataset] returns the first entry with that identifier, also when
    a later entry carries it again. *)
Theorem select_dataset_takes_first_match
    (w : world) (s : system) (before : list dataset) (d : dataset)
    (after : list dataset) (response : dict json) (selected_id : json) :
  datasets_info s = Some (before ++ d :: after) ->
  chat_completion w (clock s) = Ok (Some (JObj response)) ->
  dict_get "selected_dataset" response = Some selected_id ->
  dict_has "reason" response = true ->
  (forall x, In x before -> id_equals (ds_id x) selected_id = false) ->
  id_equals (ds_id d) selected_id = true ->
  let r := select_dataset w s in
  fst r = Ret d /\ current_dataset (snd r) = Some d.
Proof.
  intros Hinfo Hchat Hsel Hreason Hbefore Hd r.
  assert (E : select_dataset w s =
              (Ret d,
               set_current_dataset d
                 (set_clock (S (clock s))
                    (set_trace (trace s ++ [EvSelectDataset]) s)))).
  { unfold select_dataset, ai_select_dataset, _make_request, bind, emit, modify,
      gets, call, ret.
    cbn [datasets_info set_trace clock]. rewrite Hinfo, Hchat.
    unfold dict_has at 1. rewrite Hsel, Hreason. cbn [andb].
    rewrite Hsel.
    rewrite (find_first_match _ _ before d after Hbefore Hd). reflexivity. }
  subst r. rewrite E. split; reflexivity.
Qed.

(** X7, on a catalog that lists [pv1] second and again fourth. *)
Lemma select_dataset_takes_first_match_witness :
  let r := select_dataset low_score_world
             (set_datasets_info
                (Some [fundamental6; pv1; news12;
                       {| ds_id := "pv1"; ds_name := "Price Volume Data (copy)" |}])
                (init_system true)) in
  fst r = Ret pv1 /\ current_dataset (snd r) = Some pv1.
Proof.
  apply (select_dataset_takes_first_match low_score_world
           (set_datasets_info
              (Some [fundamental6; pv1; news12;
                     {| ds_id := "pv1"; ds_name := "Price Volume Data (copy)" |}])
              (init_system true))
           [fundamental6] pv1
           [news12; {| ds_id := "pv1"; ds_name := "Price Volume Data (copy)" |}]
           [("selected_dataset", JStr "pv1");
            ("reason", JStr "coverage and usage");
            ("factor_expression", JStr "ts_rank(close, 20)")]
           (JStr "pv1")).
  - reflexivity.
  - reflexivity.
  - reflexivity.
  - reflexivity.
  - intros x [<- | []]. reflexivity.
  - reflexivity.
Defined.

(* ===================================================================== *)
(** ** What [simulate_factor] and [check_factor] give back *)
(* ===================================================================== *)

(** Case analysis of a run equation [H], one case per path of the code. *)
Ltac crack H :=
  repeat (cbv beta iota in H;
    match type of H with
    | context [match ?x with _ => _ end] =>
        lazymatch x with
        | context [match _ with _ => _ end] => fail
        | _ => destruct x eqn:?
        end
    end); cbv beta iota in H.

Lemma submissions_snoc tr e :
  submissions (tr ++ [e]) = submissions tr ++ (if is_submit e then [e] else []).
Proof.
  unfold submissions. rewrite filter_app. simpl.
  destruct (is_submit e); reflexivity.
Qed.

Lemma simulate_factor_cases (w : world) (factor_expr : json) (s : system)
    (o : outcome (dict json)) (s' : system) :
  simulate_factor w factor_expr s = (o, s') ->
  mined_factors s' = mined_factors s /\
  exists sim_result,
    o = Ret sim_result /\
    (sim_result = [] \/ dict_has "alpha" sim_result = true) /\
    ((submissions (trace s') = submissions (trace s) /\ sim_result = []) \/
     exists d fields_data submitted,
       current_dataset s = Some d /\
       get_datafields w (clock s) (ds_id d) = Ok (FieldsJson fields_data) /\
       normalize_fields (build_field_map fields_data) factor_expr = Ok submitted /\
       submissions (trace s') = submissions (trace s) ++ [EvSubmit submitted]).
Proof.
  intros H.
  unfold simulate_factor, fetch_fields, try_except, bind, gets, call, lift,
    _log_info, _log_error, emit, modify, ret, raise in H.
  crack H;
    inversion H; subst; clear H;
    (split; [reflexivity |]); eexists; (split; [reflexivity |]);
    (split; [first [left; reflexivity | right; assumption] |]);
    first
      [ left; split; [| reflexivity];
        cbn [trace set_trace set_clock]; rewrite ?submissions_snoc;
        cbn [is_submit]; rewrite ?app_nil_r; reflexivity
      | right; do 3 eexists; repeat split; try eassumption;
        cbn [trace set_trace set_clock]; rewrite ?submissions_snoc;
        cbn [is_submit]; rewrite ?app_nil_r; reflexivity ].
Qed.

(** X8.  [simulate_factor] always returns, never raises, and what it returns
    is either the empty dict or a dict with an ['alpha']; it submits at most
    one expression, the given one after the casing loop over the current
    field listing, and a non-empty result comes from such a submission. *)
Theorem simulate_factor_result (w : world) (factor_expr : json) (s : system) :
  let r := simulate_factor w factor_expr s in
  mined_factors (snd r) = mined_factors s /\
  exists sim_result,
    fst r = Ret sim_result /\
    (sim_result = [] \/ dict_has "alpha" sim_result = true) /\
    ((submissions (trace (snd r)) = submissions (trace s) /\ sim_result = []) \/
     exists d fields_data submitted,
       current_dataset s = Some d /\
       get_datafields w (clock s) (ds_id d) = Ok (FieldsJson fields_data) /\
       normalize_fields (build_field_map fields_data) factor_expr = Ok submitted /\
       submissions (trace (snd r)) = submissions (trace s) ++ [EvSubmit submitted]).
Proof.
  intros r. apply (simulate_factor_cases w factor_expr s (fst r) (snd r)).
  apply surjective_pairing.
Qed.

Lemma dict_set_not_nil V k (v : V) d : dict_set k v d <> [].
Proof. destruct d as [| [k' v'] d]; simpl; [| destruct (String.eqb k k')]; discriminate. Qed.

Lemma build_field_map_not_nil f fs : build_field_map (f :: fs) <> [].
Proof.
  unfold build_field_map. cbn [fold_left].
  assert (H : forall l m, m <> [] ->
            fold_left (fun m f => dict_set (lower (field_id f)) f m) l m <> []).
  { induction l as [| a l IH]; intros m Hm; [exact Hm |].
    cbn [fold_left]. apply IH. apply dict_set_not_nil. }
  apply H. apply dict_set_not_nil.
Qed.

(** X9.  When the generator's expression is not a string (a number, a list,
    an object, ...) and the field listing has at least one field,
    [simulate_factor] submits nothing and returns the empty dict: the casing
    loop fails on the value and the failure is swallowed. *)
Theorem simulate_factor_rejects_non_string
    (w : world) (factor_expr : json) (s : system) (d : dataset)
    (f : field) (fs : list field) :
  (forall text, factor_expr <> JStr text) ->
  current_dataset s = Some d ->
  get_datafields w (clock s) (ds_id d) = Ok (FieldsJson (f :: fs)) ->
  let r := simulate_factor w factor_expr s in
  fst r = Ret [] /\ submissions (trace (snd r)) = submissions (trace s).
Proof.
  intros Hns Hcur Hget r.
  destruct (simulate_factor_cases w factor_expr s (fst r) (snd r)
              (surjective_pairing _))
    as (_ & sim & Ho & _ & [[Hsub Hnil] | (d' & fields & e' & Hc & Hg & Hn & _)]).
  - subst sim. split; assumption.
  - exfalso. rewrite Hcur in Hc. inversion Hc; subst d'.
    rewrite Hget in Hg. inversion Hg; subst fields.
    unfold normalize_fields in Hn.
    pose proof (build_field_map_not_nil f fs) as Hmap.
    destruct factor_expr; try (destruct (build_field_map (f :: fs));
                               [contradiction | discriminate]).
    exact (Hns s0 eq_refl).
Qed.

(** X9, on an expression the generator returned as a list. *)
Lemma simulate_factor_rejects_non_string_witness :
  let r := simulate_factor low_score_world
             (JArr [JStr "ts_rank(close, 20)"]) ready_system in
  fst r = Ret [] /\ submissions (trace (snd r)) = submissions (trace ready_system).
Proof.
  apply (simulate_factor_rejects_non_string low_score_world
           (JArr [JStr "ts_rank(close, 20)"]) ready_system pv1
           close_field [volume_field]).
  - intros text. discriminate.
  - reflexivity.
  - reflexivity.
Defined.

(** X10.  [check_factor] always returns and never raises.  When the check
    request succeeds with an [ok] response whose body parses, and that body
    is a JSON object or no logger is configured, the result is that body.
    In every other case (a failed request, a response that is not [ok], a
    body that does not parse, or with a logger a body that is no object,
    whose [.get] fails) the result is the empty dict. *)
Theorem check_factor_result (w : world) (alpha_id : json) (s : system) :
  let r := check_factor w alpha_id s in
  mined_factors (snd r) = mined_factors s /\
  (forall resp result,
      wqbs_check w (clock s) alpha_id = Ok resp ->
      ok resp = true ->
      body resp = Some result ->
      (logger s = false \/ exists members, result = JObj members) ->
      fst r = Ret result) /\
  (fst r = Ret (JObj []) \/
   exists resp result,
     wqbs_check w (clock s) alpha_id = Ok resp /\
     ok resp = true /\
     body resp = Some result /\
     (logger s = false \/ exists members, result = JObj members) /\
     fst r = Ret result).
Proof.
  intros r.
  assert (Hm : mined_factors (snd r) = mined_factors s).
  { subst r. destruct (check_factor w alpha_id s) as [o s'] eqn:H.
    apply check_factor_quiet in H. apply H. }
  split; [exact Hm |].
  subst r.
  unfold check_factor, try_except, bind, gets, call, lift, emit, modify, ret,
    raise.
  cbn [clock set_trace logger set_clock].
  destruct (wqbs_check w (clock s) alpha_id) as [resp | e] eqn:Echeck.
  2: { split; [intros ? ? Hc; discriminate Hc | left; reflexivity]. }
  cbv beta iota.
  destruct (ok resp) eqn:Eok; cbn [negb]; cbv beta iota.
  2: { split; [intros ? ? Hr Hc; inversion Hr; subst; congruence
              | left; reflexivity]. }
  destruct (body resp) as [result |] eqn:Ebody; cbv beta iota.
  2: { split; [intros ? ? Hr _ Hc; inversion Hr; subst; congruence
              | left; reflexivity]. }
  cbn [logger set_trace set_clock].
  destruct (logger s) eqn:Elg; cbv beta iota.
  - destruct result;
      try (split;
           [ intros resp' result' Hr _ Hb [Hc | [members Hc]]; congruence
           | left; reflexivity ]).
    split.
    + intros resp' result' Hr _ Hb _. inversion Hr; subst resp'.
      rewrite Ebody in Hb. inversion Hb; subst result'. reflexivity.
    + right. exists resp. eexists. repeat split; eauto.
  - split.
    + intros resp' result' Hr _ Hb _. inversion Hr; subst resp'.
      rewrite Ebody in Hb. inversion Hb; subst result'. reflexivity.
    + right. exists resp, result. repeat split; auto.
Qed.

(** X10, on a check that succeeds with a logger configured: the document
    comes back. *)
Lemma check_factor_result_witness :
  fst (check_factor low_score_world (JStr "alpha-1") ready_system)
  = Ret (check_document 0).
Proof.
  apply (proj1 (proj2 (check_factor_result low_score_world (JStr "alpha-1")
                         ready_system))
           {| ok := true; body := Some (check_document 0) |} (check_document 0)).
  - reflexivity.
  - reflexivity.
  - reflexivity.
  - right. eexists. reflexivity.
Defined.

(** With a logger, a body that parses to something else than an object is
    lost: [result.get] raises and the handler returns the empty dict. *)
Example check_factor_drops_non_object_body :
  let w := {| search_datasets_limited := search_datasets_limited low_score_world;
              search_operators := search_operators low_score_world;
              chat_completion := chat_completion low_score_world;
              get_datafields := get_datafields low_score_world;
              simulate := simulate low_score_world;
              wqbs_check := fun _ _ =>
                Ok {| ok := true; body := Some (JArr [JNum 1]) |};
              write_file := write_file low_score_world |} in
  fst (check_factor w (JStr "alpha-1") (init_system true)) = Ret (JObj []) /\
  fst (check_factor w (JStr "alpha-1") (init_system false)) = Ret (JArr [JNum 1]).
Proof. split; reflexivity. Qed.

(* ===================================================================== *)
(** ** A failed field listing, a catalog document without results *)
(* ===================================================================== *)

Lemma fetch_fields_empty_frame w s d :
  current_dataset s = Some d ->
  get_datafields w (clock s) (ds_id d) = Ok EmptyFrame ->
  fetch_fields w s = (Raise ValueError, set_clock (S (clock s)) s).
Proof.
  intros Hcur Hget. unfold fetch_fields, bind, gets, call. cbv beta iota.
  rewrite Hcur. cbv beta iota. rewrite Hget. reflexivity.
Qed.

(** X11.  When the field listing comes back as the empty frame (its first
    page was not [ok]), [generate_initial_factor] and [generate_next_factor]
    raise [ValueError] without asking the generator, they do not return the
    empty string; [simulate_factor] swallows the same failure, submits
    nothing and returns the empty dict. *)
Theorem failed_listing_behaviour (w : world) (s : system) (d : dataset) :
  current_dataset s = Some d ->
  get_datafields w (clock s) (ds_id d) = Ok EmptyFrame ->
  (fst (generate_initial_factor w s) = Raise ValueError /\
   clock (snd (generate_initial_factor w s)) = S (clock s)) /\
  (forall previous,
      fst (generate_next_factor w previous s) = Raise ValueError /\
      clock (snd (generate_next_factor w previous s)) = S (clock s)) /\
  (forall factor_expr,
      fst (simulate_factor w factor_expr s) = Ret [] /\
      clock (snd (simulate_factor w factor_expr s)) = S (clock s) /\
      submissions (trace (snd (simulate_factor w factor_expr s)))
        = submissions (trace s)).
Proof.
  intros Hcur Hget. split; [| split].
  - unfold generate_initial_factor, bind, emit, modify. cbv beta iota.
    rewrite (fetch_fields_empty_frame w _ d); [split; reflexivity | exact Hcur | exact Hget].
  - intros previous. unfold generate_next_factor, bind, emit, modify. cbv beta iota.
    rewrite (fetch_fields_empty_frame w _ d); [split; reflexivity | exact Hcur | exact Hget].
  - intros factor_expr. unfold simulate_factor, try_except, bind.
    rewrite (fetch_fields_empty_frame w s d Hcur Hget).
    unfold _log_error, emit, modify, ret. cbv beta iota. cbn [fst snd clock set_trace set_clock trace].
    repeat split. rewrite submissions_snoc. cbn [is_submit]. apply app_nil_r.
Qed.

(** X11, in the world whose field listing always fails. *)
Lemma failed_listing_behaviour_witness :
  fst (generate_initial_factor no_fields_world ready_system) = Raise ValueError /\
  clock (snd (generate_initial_factor no_fields_world ready_system)) = 1%nat.
Proof.
  exact (proj1 (failed_listing_behaviour no_fields_world ready_system pv1
                  eq_refl eq_refl)).
Defined.




(* ===================================================================== *)
(** ** What the generator is fed, and how records are labelled *)
(* ===================================================================== *)

Lemma bind_inv A B (m : M A) (k : A -> M B) s o s' :
  bind m k s = (o, s') ->
  (exists a s1, m s = (Ret a, s1) /\ k a s1 = (o, s')) \/
  (exists e, m s = (Raise e, s') /\ o = Raise e) \/
  (m s = (OutOfFuel, s') /\ o = OutOfFuel).
Proof.
  unfold bind. destruct (m s) as [[a | e |] s1]; intros H.
  - left. eauto.
  - right. left. inversion H; subst. eauto.
  - right. right. inversion H; subst. auto.
Qed.

(** [respects] for a computation whose first step is known at [s] only. *)
Lemma respects_bind_at (R : system -> system -> Prop) `{HR : !PreOrder R}
    A B (m : M A) (k : A -> M B) s :
  (forall o1 s1, m s = (o1, s1) -> R s s1) ->
  (forall a, respects R (k a)) ->
  forall o s', bind m k s = (o, s') -> R s s'.
Proof.
  intros Hm Hk o s' H. apply bind_inv in H.
  destruct H as [(a & s1 & E & H) | [(e & E & _) | (E & _)]].
  - etransitivity; [eapply Hm; exact E | eapply Hk; exact H].
  - eapply Hm; exact E.
  - eapply Hm; exact E.
Qed.

Lemma feeds_app d1 : forall acc d2,
  feeds acc (d1 ++ d2) <-> feeds acc d1 /\ feeds (acc ++ appended d1) d2.
Proof.
  induction d1 as [| e d1 IH]; intros acc d2; simpl.
  - rewrite app_nil_r. tauto.
  - destruct e; simpl; try apply IH.
    + rewrite IH. tauto.
    + rewrite IH, <- app_assoc. reflexivity.
Qed.

Lemma feeds_quiet d : forall acc, Forall quiet d -> feeds acc d.
Proof.
  induction d as [| e d IH]; intros acc H; [exact I |].
  inversion H; subst. destruct e; simpl in *; try contradiction; auto.
Qed.

#[local] Instance fed_step_preorder : PreOrder fed_step.
Proof.
  split.
  - intros s. exists []. simpl. rewrite !app_nil_r. repeat split.
  - intros s1 s2 s3 (d1 & Ht1 & Hm1 & Hf1) (d2 & Ht2 & Hm2 & Hf2).
    exists (d1 ++ d2). rewrite appended_app. repeat split.
    + rewrite Ht2, Ht1, app_assoc. reflexivity.
    + rewrite Hm2, Hm1, app_assoc. reflexivity.
    + apply feeds_app. split; [assumption | rewrite <- Hm1; assumption].
Qed.

Lemma quiet_fed s s' : quiet_step s s' -> fed_step s s'.
Proof.
  intros [Hm (d & Ht & Hq)]. exists d.
  rewrite (appended_quiet d Hq), app_nil_r.
  repeat split; auto using feeds_quiet.
Qed.

Lemma append_fed r : respects fed_step (append r).
Proof.
  intros s o s' H. inversion H; subst; clear H.
  exists [EvAppend r]. simpl. repeat split.
Qed.

Lemma save_factors_fed w site : respects fed_step (save_factors w site).
Proof.
  intros s o s' H. unfold save_factors, bind, gets, emit, modify, call in H.
  simpl in H.
  assert (Hs : fed_step s
            (set_clock (S (clock s))
               (set_trace (trace s ++ [EvSave site (mined_factors s)]) s))).
  { exists [EvSave site (mined_factors s)]. simpl. rewrite app_nil_r.
    repeat split. }
  destruct (write_file w (clock s) (mined_factors s));
    inversion H; subst; exact Hs.
Qed.

(** A proof that an operation of the controller is a [fed_step], by
    following its text. *)
Ltac fed_auto :=
  repeat mstep;
  try solve
    [ eapply respects_weaken; [ solve [ eauto with quiet_ops ] | apply quiet_fed ]
    | eapply respects_weaken; [ apply quiet_emit; exact I | apply quiet_fed ]
    | apply append_fed
    | apply save_factors_fed
    | eauto ].

Section FedOperations.

Variable w : world.
Variable cfg : config.

Lemma improve_body_fed ds ms : respects fed_step (improve_body w ds ms).
Proof.
  intros s. unfold improve_body.
  change (forall o s',
    bind (generate_next_factor w (mined_factors s))
      (fun next_factor =>
         if negb (truthy next_factor)
         then _log_warning "next factor generation failed" ;; ret false
         else
           _log_info next_info_msg ;;
           sim_result <- simulate_factor w next_factor ;;
           if lacks_alpha sim_result
           then _log_warning next_sim_failed_msg ;; ret false
           else
             alpha_id <- subscript sim_result "alpha" ;;
             check_result <- check_factor w alpha_id ;;
             if negb (truthy check_result)
             then _log_warning "new factor check failed" ;; ret false
             else
               append {| expression := next_factor;
                         simulation := sim_result;
                         check := check_result;
                         dataset_of := ds |} ;;
               hit <- lift (meets_target check_result ms) ;;
               if hit
               then _log_info found_msg ;; ret false
               else ret true) s = (o, s') -> fed_step s s').
  apply respects_bind_at; [typeclasses eauto | |].
  - intros o1 s1 E. apply generate_next_factor_spec in E.
    destruct E as [_ [Hm (d & Ht & Hq)]]. simpl in Hm, Ht.
    exists (EvGenerateNext (mined_factors s) :: d).
    change (EvGenerateNext (mined_factors s) :: d)
      with ([EvGenerateNext (mined_factors s)] ++ d).
    rewrite appended_app, (appended_quiet d Hq). simpl. rewrite app_nil_r.
    repeat split.
    + rewrite Ht, <- app_assoc. reflexivity.
    + exact Hm.
    + apply feeds_quiet. exact Hq.
  - intros next_factor. unfold subscript, _log_warning, _log_info. fed_auto.
Qed.

Lemma improve_round_fed ds ms : respects fed_step (improve_round w ds ms).
Proof.
  unfold improve_round, _log_error.
  pose proof (improve_body_fed ds ms). fed_auto.
Qed.

Lemma improve_loop_fed fuel ds mi ms : forall it,
  respects fed_step (improve_loop w fuel ds mi ms it).
Proof.
  induction fuel as [| fuel IH]; intros it; simpl.
  - fed_auto.
  - pose proof (improve_round_fed ds ms). fed_auto.
Qed.

Lemma cycle_body_fed mi ms : respects fed_step (cycle_body w cfg mi ms).
Proof.
  unfold cycle_body, checkpoint, subscript, _log_warning, _log_info.
  pose proof (fun ds => improve_loop_fed (Z.to_nat mi) ds mi ms 0%Z).
  fed_auto.
Qed.

Lemma mine_loop_fed fuel mi ms : respects fed_step (mine_loop w cfg fuel mi ms).
Proof.
  induction fuel as [| fuel IH]; simpl.
  - fed_auto.
  - pose proof (cycle_body_fed mi ms). unfold outer_cycle, _log_error. fed_auto.
Qed.

Lemma mine_factors_fed fuel mi ms :
  respects fed_step (mine_factors w cfg fuel mi ms).
Proof.
  unfold mine_factors.
  pose proof (fun a b => mine_loop_fed fuel a b).
  fed_auto.
Qed.

End FedOperations.

Lemma feeds_split d : forall acc pre previous post,
  feeds acc d ->
  d = pre ++ EvGenerateNext previous :: post ->
  previous = acc ++ appended pre.
Proof.
  induction d as [| e d IH]; intros acc pre previous post Hf Hd.
  - destruct pre; discriminate.
  - destruct pre as [| e' pre]; simpl in Hd; inversion Hd; subst; clear Hd.
    + simpl in Hf. destruct Hf as [-> _]. simpl. now rewrite app_nil_r.
    + destruct e'; simpl in Hf |- *;
        try (eapply IH; [exact Hf | reflexivity]).
      * destruct Hf as [_ Hf]. eapply IH; [exact Hf | reflexivity].
      * rewrite (IH (acc ++ [r]) pre previous post Hf eq_refl).
        rewrite <- app_assoc. reflexivity.
Qed.

(** X13.  In every run, each call of [generate_next_factor] is passed the
    whole sequence of records appended so far in the run, those of earlier
    cycles and datasets included, not only the records of the current
    seed. *)
Theorem generator_is_fed_the_whole_history
    (w : world) (cfg : config) (fuel : nat) (mi : option Z) (ms : option Q)
    (lg : bool) (pre : list event) (previous : list factor_info)
    (post : list event) :
  trace (snd (mine_factors w cfg fuel mi ms (init_system lg)))
    = pre ++ EvGenerateNext previous :: post ->
  previous = appended pre.
Proof.
  intros Htrace.
  destruct (mine_factors w cfg fuel mi ms (init_system lg)) as [o s'] eqn:E.
  apply mine_factors_fed in E.
  destruct E as (d & Ht & _ & Hf). simpl in Ht, Hf, Htrace.
  rewrite Ht in Htrace.
  apply (feeds_split _ [] pre previous post Hf Htrace).
Qed.

(** X13, on the second cycle of the small run: its first revision is asked
    for with the two records of the first cycle and the new seed. *)
Lemma generator_is_fed_the_whole_history_witness :
  firstn 3 (mined_factors (snd small_run))
    = appended (firstn 30 (trace (snd small_run))).
Proof.
  refine (generator_is_fed_the_whole_history low_score_world small_config 20
            None None true (firstn 30 (trace (snd small_run)))
            (firstn 3 (mined_factors (snd small_run)))
            (skipn 31 (trace (snd small_run))) _).
  vm_compute. reflexivity.
Defined.


#[local] Instance labelled_step_preorder ds : PreOrder (labelled_step ds).
Proof.
  split.
  - intros s. split; [reflexivity |]. exists []. rewrite app_nil_r.
    split; [reflexivity | constructor].
  - intros s1 s2 s3 [Hc1 (d1 & Ht1 & Hl1)] [Hc2 (d2 & Ht2 & Hl2)].
    split; [congruence |]. exists (d1 ++ d2). rewrite appended_app. split.
    + rewrite Ht2, Ht1, app_assoc. reflexivity.
    + apply Forall_app. split; assumption.
Qed.

Lemma labelled_emit ds e s :
  match e with EvAppend _ => False | _ => True end ->
  labelled_step ds s (set_trace (trace s ++ [e]) s).
Proof.
  intros He. split; [reflexivity |]. exists [e]. split; [reflexivity |].
  destruct e; simpl in *; try contradiction; constructor.
Qed.

Lemma labelled_set_clock ds n s : labelled_step ds s (set_clock n s).
Proof. split; [reflexivity |]. exists []. simpl. rewrite app_nil_r. split; [reflexivity | constructor]. Qed.

Lemma append_labelled ds r :
  dataset_of r = ds -> respects (labelled_step ds) (append r).
Proof.
  intros Hr s o s' H. inversion H; subst; clear H.
  split; [reflexivity |]. exists [EvAppend r]. simpl.
  split; [reflexivity | repeat constructor].
Qed.

(** A proof that an operation keeps the current dataset and labels what it
    appends, by following its text down to the calls and the events. *)
Ltac lab_auto :=
  repeat mstep;
  try solve
    [ apply respects_modify; intros ?; apply labelled_emit; exact I
    | apply respects_call; intros; apply labelled_set_clock
    | apply append_labelled; reflexivity
    | eauto ].

Section LabelledOperations.

Variable w : world.
Variable cfg : config.
Variable ds : dataset.

Lemma ai_generate_factor_labelled : respects (labelled_step ds) (ai_generate_factor w).
Proof. unfold ai_generate_factor, _make_request. lab_auto. Qed.

Lemma fetch_fields_labelled : respects (labelled_step ds) (fetch_fields w).
Proof. unfold fetch_fields. lab_auto. Qed.

Lemma generate_next_factor_labelled previous :
  respects (labelled_step ds) (generate_next_factor w previous).
Proof.
  unfold generate_next_factor, emit.
  pose proof ai_generate_factor_labelled. pose proof fetch_fields_labelled.
  lab_auto.
Qed.

Lemma generate_initial_factor_labelled :
  respects (labelled_step ds) (generate_initial_factor w).
Proof.
  unfold generate_initial_factor, emit.
  pose proof ai_generate_factor_labelled. pose proof fetch_fields_labelled.
  lab_auto.
Qed.

Lemma simulate_factor_labelled e : respects (labelled_step ds) (simulate_factor w e).
Proof.
  unfold simulate_factor, _log_info, _log_error, emit.
  pose proof fetch_fields_labelled. lab_auto.
Qed.

Lemma check_factor_labelled a : respects (labelled_step ds) (check_factor w a).
Proof. unfold check_factor, emit. lab_auto. Qed.

Lemma save_factors_labelled site : respects (labelled_step ds) (save_factors w site).
Proof. unfold save_factors, emit. lab_auto. Qed.

Lemma improve_round_labelled ms : respects (labelled_step ds) (improve_round w ds ms).
Proof.
  unfold improve_round, improve_body, subscript, _log_warning, _log_info,
    _log_error, emit.
  pose proof generate_next_factor_labelled.
  pose proof simulate_factor_labelled. pose proof check_factor_labelled.
  lab_auto.
Qed.

Lemma improve_loop_labelled fuel mi ms : forall it,
  respects (labelled_step ds) (improve_loop w fuel ds mi ms it).
Proof.
  induction fuel as [| fuel IH]; intros it; simpl.
  - lab_auto.
  - pose proof (improve_round_labelled ms). lab_auto.
Qed.

End LabelledOperations.

Lemma cycle_body_labelled w cfg mi ms s o s' :
  cycle_body w cfg mi ms s = (o, s') ->
  exists d,
    trace s' = trace s ++ d /\
    (appended d = [] \/
     exists ds results,
       datasets_info s = Some results /\ In ds results /\
       current_dataset s' = Some ds /\
       Forall (fun r => dataset_of r = ds) (appended d)).
Proof.
  intros H. unfold cycle_body in H. apply bind_inv in H.
  destruct H as [(ds & s1 & E & H) | [(e & E & _) | (E & _)]].
  - pose proof (select_dataset_quiet w _ _ _ E) as [_ (dq & Htq & Hq)].
    apply select_dataset_cases in E.
    destruct E as [_ [Hcur (results & Hinfo & Hin)]].
    match type of H with
    | ?m s1 = _ => assert (Hk : respects (labelled_step ds) m)
    end.
    { unfold checkpoint, subscript, _log_warning, _log_info, emit.
      pose proof (generate_initial_factor_labelled w ds).
      pose proof (simulate_factor_labelled w ds).
      pose proof (check_factor_labelled w ds).
      pose proof (save_factors_labelled w ds).
      pose proof (fun fuel => improve_loop_labelled w ds fuel mi ms).
      lab_auto. }
    apply Hk in H. destruct H as [Hc (d2 & Ht2 & Hl)].
    exists (dq ++ d2). split.
    + rewrite Ht2, Htq, app_assoc. reflexivity.
    + right. exists ds, results. repeat split; auto.
      * congruence.
      * rewrite appended_app, (appended_quiet dq Hq). exact Hl.
  - pose proof (select_dataset_quiet w _ _ _ E) as [_ (dq & Htq & Hq)].
    exists dq. split; [exact Htq | left; apply appended_quiet; exact Hq].
  - pose proof (select_dataset_quiet w _ _ _ E) as [_ (dq & Htq & Hq)].
    exists dq. split; [exact Htq | left; apply appended_quiet; exact Hq].
Qed.

(** X14.  Every record appended in an outer cycle, the seed and all its
    revisions, carries the dataset that the [select_dataset] of that cycle
    returned: an entry of the catalog, and the current dataset when the
    cycle ends. *)
Theorem records_carry_the_selected_dataset
    (w : world) (cfg : config) (mi : Z) (ms : Q) (s : system)
    (o : outcome ctl) (s' : system) (d : list event) (r : factor_info) :
  cycle_body w cfg mi ms s = (o, s') ->
  trace s' = trace s ++ d ->
  In r (appended d) ->
  current_dataset s' = Some (dataset_of r) /\
  exists results, datasets_info s = Some results /\ In (dataset_of r) results.
Proof.
  intros Hrun Htrace Hin.
  apply cycle_body_labelled in Hrun.
  destruct Hrun as (d' & Ht & Hcases).
  rewrite Ht in Htrace. apply app_inv_head in Htrace. subst d'.
  destruct Hcases as [Hnil | (ds & results & Hinfo & Hds & Hcur & Hall)].
  - rewrite Hnil in Hin. destruct Hin.
  - rewrite Forall_forall in Hall. rewrite (Hall r Hin).
    split; [exact Hcur | exists results; split; assumption].
Qed.

(** X14, on the first cycle of the low-score world: its last record. *)
Lemma records_carry_the_selected_dataset_witness :
  let s' := snd (cycle_body low_score_world small_config 1 (15 # 10) low_score_start) in
  let r := last (mined_factors s')
             {| expression := JNull; simulation := []; check := JNull;
                dataset_of := news12 |} in
  current_dataset s' = Some (dataset_of r) /\
  exists results,
    datasets_info low_score_start = Some results /\ In (dataset_of r) results.
Proof.
  intros s' r.
  refine (records_carry_the_selected_dataset low_score_world small_config 1
            (15 # 10) low_score_start
            (fst (cycle_body low_score_world small_config 1 (15 # 10) low_score_start))
            s' (trace s') r _ _ _).
  - apply surjective_pairing.
  - vm_compute. reflexivity.
  - vm_compute. right. left. reflexivity.
Defined.

(* ===================================================================== *)
(** ** How the outer loop ends, and when it does not *)
(* ===================================================================== *)

Lemma outer_cycle_stop_reason w cfg mi ms s s1 :
  outer_cycle w cfg mi ms s = (Ret Stop, s1) ->
  (max_factors cfg <= count s1)%Z \/
  exists pre, trace s1 = pre ++ [EvLog Error main_error_msg].
Proof.
  intros H. unfold outer_cycle, try_except in H.
  destruct (cycle_body w cfg mi ms s) as [o s0] eqn:E.
  apply cycle_body_spec in E.
  destruct o as [c | e |].
  - inversion H; subst; clear H. left.
    inversion E as [o' d s'' Ht Hq Hm Ho
                   | o' d r dl dc s'' Ht Hq Hacc Hm Hr Hl Hs Hns Hdc Hf Hcap];
      subst.
    + destruct Ho as [Ho | [e Ho]]; discriminate.
    + specialize (Hcap Stop eq_refl). unfold cap_test in Hcap.
      destruct (max_factors cfg <=? count s1)%Z eqn:El; [| discriminate].
      apply Z.leb_le. exact El.
  - unfold bind, _log_error, emit, modify, ret in H. inversion H; subst.
    right. eexists. reflexivity.
  - discriminate.
Qed.

Lemma mine_loop_exit w cfg mi ms : forall fuel s o s',
  mine_loop w cfg fuel mi ms s = (o, s') ->
  match o with
  | Ret _ =>
      (max_factors cfg <= count s')%Z \/
      exists pre, trace s' = pre ++ [EvLog Error main_error_msg]
  | Raise _ => False
  | OutOfFuel => (count s' < max_factors cfg)%Z
  end.
Proof.
  induction fuel as [| fuel IH]; intros s o s' H; simpl in H;
    unfold bind, gets in H;
    destruct (count s <? max_factors cfg)%Z eqn:Elt;
    try apply Z.ltb_lt in Elt; try apply Z.ltb_ge in Elt;
    try (inversion H; subst; auto; fail).
  destruct (outer_cycle w cfg mi ms s) as [[c | e |] s1] eqn:E.
  - destruct c.
    + apply IH in H. exact H.
    + inversion H; subst. apply outer_cycle_stop_reason in E. exact E.
  - exfalso. eapply (outer_cycle_no_raise w cfg mi ms s). rewrite E. reflexivity.
  - inversion H; subst; clear H. exfalso.
    unfold outer_cycle, try_except in E.
    destruct (cycle_body w cfg mi ms s) as [o0 s0] eqn:Ec.
    apply cycle_body_spec in Ec.
    destruct o0 as [c | e |]; try discriminate.
    inversion Ec as [o' d s'' Ht Hq Hm Ho
                    | o' d r dl dc s'' Ht Hq Hacc Hm Hr Hl Hs Hns Hdc Hf Hcap];
      subst.
    + destruct Ho as [Ho | [e Ho]]; discriminate.
    + apply Hf. reflexivity.
Qed.

(** X15.  A run of [mine_factors] that returns has either reached the cap
    or been stopped by the handler of the outer loop: its count is at least
    [max_factors], or its trace ends with the error line of the main loop
    followed by the final snapshot.  Failed generations, simulations and
    checks alone never end a run. *)
Theorem run_ends_at_cap_or_on_error
    (w : world) (cfg : config) (fuel : nat) (mi : option Z) (ms : option Q)
    (s s' : system) :
  mine_factors w cfg fuel mi ms s = (Ret tt, s') ->
  (max_factors cfg <= count s')%Z \/
  exists pre,
    trace s' = pre ++ [EvLog Error main_error_msg;
                       EvSave Final (mined_factors s')].
Proof.
  intros H. unfold mine_factors in H.
  apply bind_inv in H.
  destruct H as [(u & s1 & _ & H) | [(e & _ & He) | (_ & He)]];
    [| discriminate | discriminate].
  apply bind_inv in H.
  destruct H as [(u2 & s2 & Eloop & H) | [(e & _ & He) | (_ & He)]];
    [| discriminate | discriminate].
  apply mine_loop_exit in Eloop.
  assert (Hs : mined_factors s' = mined_factors s2 /\
               trace s' = trace s2 ++ [EvSave Final (mined_factors s2)]).
  { unfold save_factors, bind, gets, emit, modify, call in H.
    cbv beta iota in H.
    destruct (write_file w _ _); inversion H; subst. split; reflexivity. }
  destruct Hs as [Hm Ht].
  destruct Eloop as [Hcap | [pre Hpre]].
  - left. unfold count in *. rewrite Hm. exact Hcap.
  - right. exists pre. rewrite Ht, Hpre, Hm, <- app_assoc. reflexivity.
Qed.

(** X15, on the run of the small configuration in the low-score world. *)
Lemma run_ends_at_cap_or_on_error_witness :
  ((max_factors small_config <= count (snd small_run))%Z \/
   exists pre,
     trace (snd small_run) =
       pre ++ [EvLog Error main_error_msg;
               EvSave Final (mined_factors (snd small_run))]).
Proof.
  apply (run_ends_at_cap_or_on_error low_score_world small_config 20 None None
           (init_system true) (snd small_run)).
  vm_compute. reflexivity.
Defined.


Lemma select_dataset_state w s o s' :
  select_dataset w s = (o, s') ->
  trace s' = trace s ++ [EvSelectDataset] /\
  clock s' = S (clock s) /\
  mined_factors s' = mined_factors s.
Proof.
  intros H. unfold select_dataset, bind, emit, modify, gets in H.
  cbv beta iota in H. cbn [datasets_info set_trace] in H.
  destruct (ai_select_dataset w (datasets_info s)
              (set_trace (trace s ++ [EvSelectDataset]) s)) as [o1 s1] eqn:E.
  apply ai_select_dataset_spec in E. destruct E as [Hs1 _]. subst s1.
  unfold ret, raise in H.
  crack H; inversion H; subst; repeat split; reflexivity.
Qed.

Lemma ai_generate_factor_silent w s :
  silent (chat_completion w (clock s)) ->
  exists e, ai_generate_factor w s = (Ret e, set_clock (S (clock s)) s) /\
            truthy e = false.
Proof.
  intros Hsilent. unfold ai_generate_factor, _make_request, bind, call, ret.
  cbv beta iota. unfold silent in Hsilent.
  destruct (chat_completion w (clock s)) as [[j |] | err];
    try (eexists; split; reflexivity).
  destruct j; try (eexists; split; reflexivity).
  cbv beta iota.
  match goal with
  | H : match dict_get ?k ?m with _ => _ end |- _ =>
      destruct (dict_get k m) as [e |]
  end.
  - exists e. split; [reflexivity | exact Hsilent].
  - eexists. split; reflexivity.
Qed.

Lemma generate_initial_factor_silent w s d fs :
  current_dataset s = Some d ->
  get_datafields w (clock s) (ds_id d) = Ok (FieldsJson fs) ->
  silent (chat_completion w (S (clock s))) ->
  exists e,
    generate_initial_factor w s =
      (Ret e, set_clock (S (S (clock s)))
                (set_trace (trace s ++ [EvGenerateInitial]) s)) /\
    truthy e = false.
Proof.
  intros Hcur Hfs Hsilent.
  destruct (ai_generate_factor_silent w
              (set_clock (S (clock s))
                 (set_trace (trace s ++ [EvGenerateInitial]) s)))
    as (e & Hgen & Hfalsy).
  { exact Hsilent. }
  exists e. split; [| exact Hfalsy].
  unfold generate_initial_factor, fetch_fields, bind, emit, modify, gets,
    call, lift, ret.
  cbv beta iota. cbn [current_dataset set_trace clock]. rewrite Hcur.
  cbv beta iota. cbn [clock set_trace set_clock]. rewrite Hfs. cbv beta iota.
  change (set_clock (S (clock s)) (set_trace (trace s ++ [EvGenerateInitial]) s))
    with (set_clock (S (clock (set_trace (trace s ++ [EvGenerateInitial]) s)))
            (set_trace (trace s ++ [EvGenerateInitial]) s)) in Hgen.
  cbn [clock set_trace set_clock] in Hgen |- *.
  rewrite Hgen. reflexivity.
Qed.

Lemma cycle_body_silent w cfg mi ms s first rest :
  datasets_info s = Some (first :: rest) ->
  (forall n, silent (chat_completion w n)) ->
  (forall n id, exists fs, get_datafields w n id = Ok (FieldsJson fs)) ->
  exists s1,
    cycle_body w cfg mi ms s = (Ret Next, s1) /\
    mined_factors s1 = mined_factors s /\
    datasets_info s1 = datasets_info s /\
    clock s1 = (clock s + 3)%nat /\
    exists lvl msg,
      trace s1 = trace s ++ [EvSelectDataset; EvGenerateInitial; EvLog lvl msg].
Proof.
  intros Hinfo Hsilent Hfields.
  destruct (select_dataset w s) as [o s0] eqn:Esel.
  pose proof (select_dataset_state w _ _ _ Esel) as (Ht0 & Hc0 & Hm0).
  pose proof (select_dataset_cases w _ _ _ Esel) as [Hi0 Ho].
  destruct o as [ds | e |]; [| | contradiction].
  2: { destruct Ho as [_ [[_ Hn] | [_ Hn]]]; rewrite Hinfo in Hn; discriminate. }
  destruct Ho as [Hcur _].
  destruct (Hfields (clock s0) (ds_id ds)) as [fs Hfs].
  destruct (generate_initial_factor_silent w s0 ds fs Hcur Hfs (Hsilent _))
    as (e & Egen & Hfalsy).
  eexists. split; [| split; [| split; [| split]]].
  - unfold cycle_body, bind at 1. rewrite Esel. cbv beta iota.
    unfold bind at 1. rewrite Egen. cbv beta iota. rewrite Hfalsy.
    reflexivity.
  - cbn. exact Hm0.
  - cbn. exact Hi0.
  - cbn. rewrite Hc0. lia.
  - do 2 eexists. cbn. rewrite Ht0, <- !app_assoc. reflexivity.
Qed.

(** X16.  While the generator never yields an expression (its completions
    fail, are not JSON objects, or carry no usable ['factor_expression']) and
    the catalog and the field listings are served, the outer loop starts
    cycle after cycle without recording anything: below the cap it never
    ends, however many cycles it is allowed, and each cycle costs three
    requests.  The code has no limit on failed cycles. *)
Theorem no_expression_no_end
    (w : world) (cfg : config) (mi : Z) (ms : Q)
    (first : dataset) (rest : list dataset) :
  (forall n, silent (chat_completion w n)) ->
  (forall n id, exists fs, get_datafields w n id = Ok (FieldsJson fs)) ->
  forall fuel s,
    datasets_info s = Some (first :: rest) ->
    (count s < max_factors cfg)%Z ->
    fst (mine_loop w cfg fuel mi ms s) = OutOfFuel /\
    mined_factors (snd (mine_loop w cfg fuel mi ms s)) = mined_factors s /\
    clock (snd (mine_loop w cfg fuel mi ms s)) = (clock s + 3 * fuel)%nat /\
    length (filter is_select (trace (snd (mine_loop w cfg fuel mi ms s))))
      = (length (filter is_select (trace s)) + fuel)%nat.
Proof.
  intros Hsilent Hfields.
  induction fuel as [| fuel IH]; intros s Hinfo Hlt;
    pose proof Hlt as Hltb; apply Z.ltb_lt in Hltb.
  - cbn [mine_loop]. unfold bind, gets. rewrite Hltb. cbn.
    repeat split; lia.
  - destruct (cycle_body_silent w cfg mi ms s first rest Hinfo Hsilent Hfields)
      as (s1 & Ecyc & Hm1 & Hi1 & Hc1 & lvl & msg & Ht1).
    assert (Erun : mine_loop w cfg (S fuel) mi ms s = mine_loop w cfg fuel mi ms s1).
    { cbn [mine_loop]. unfold bind at 1, gets. rewrite Hltb.
      unfold bind at 1, outer_cycle, try_except. rewrite Ecyc. reflexivity. }
    rewrite Erun.
    destruct (IH s1) as (Ho & Hm & Hc & Hn).
    { congruence. }
    { unfold count in *. rewrite Hm1. exact Hlt. }
    rewrite Ho, Hm, Hc, Hn, Hm1, Hc1, Ht1, filter_app, length_app.
    cbn. repeat split; lia.
Qed.

(** X16, in the world whose generator is mute. *)
Lemma no_expression_no_end_witness :
  (forall n, silent (chat_completion mute_world n)) /\
  (forall n id, exists fs, get_datafields mute_world n id = Ok (FieldsJson fs)) /\
  datasets_info mute_start = Some (pv1 :: [fundamental6; news12]) /\
  (count mute_start < max_factors small_config)%Z /\
  fst (mine_loop mute_world small_config 7 1 (15 # 10) mute_start) = OutOfFuel.
Proof.
  assert (Hs : forall n, silent (chat_completion mute_world n)).
  { intros n. exact I. }
  assert (Hf : forall n id,
             exists fs, get_datafields mute_world n id = Ok (FieldsJson fs)).
  { intros n id. eexists. reflexivity. }
  assert (Hi : datasets_info mute_start = Some (pv1 :: [fundamental6; news12])).
  { reflexivity. }
  assert (Hc : (count mute_start < max_factors small_config)%Z).
  { vm_compute. reflexivity. }
  split; [exact Hs |]. split; [exact Hf |]. split; [exact Hi |].
  split; [exact Hc |].
  exact (proj1 (no_expression_no_end mute_world small_config 1 (15 # 10)
                  pv1 [fundamental6; news12] Hs Hf 7%nat mute_start Hi Hc)).
Defined.


(* ===================================================================== *)
(** ** The shape of an outer cycle *)
(* ===================================================================== *)

(** An outer cycle either records nothing, or records a seed after quiet
    steps, runs the improvement loop from round 0 and then the checkpoint. *)
Lemma cycle_body_cases w cfg mi ms s o s' :
  cycle_body w cfg mi ms s = (o, s') ->
  (mined_factors s' = mined_factors s /\
   (o = Ret Next \/ exists e, o = Raise e)) \/
  (exists ds r s4 s5 oc,
     quiet_step s s4 /\
     accepted r /\
     dataset_of r = ds /\
     improve_loop w (Z.to_nat mi) ds mi ms 0 (after_append r s4) = (Ret tt, s5) /\
     checkpoint w cfg s5 = (oc, s') /\
     match oc with
     | Ret _ => o = Ret (cap_test cfg (count s'))
     | Raise e => o = Raise e
     | OutOfFuel => False
     end).
Proof.
  intros H. unfold cycle_body, bind in H.
  pose proof (select_dataset_total w s) as Htot.
  destruct (select_dataset w s) as [[ds | e |] s1] eqn:E1;
    [ | | exfalso; apply Htot; reflexivity ]; clear Htot;
    apply select_dataset_quiet in E1.
  2: { inversion H; subst. left. split; [apply E1 | eauto]. }
  pose proof (generate_initial_factor_total w s1) as Htot.
  destruct (generate_initial_factor w s1) as [[fe | e |] s2] eqn:E2;
    [ | | exfalso; apply Htot; reflexivity ]; clear Htot;
    apply generate_initial_factor_quiet in E2;
    assert (Hq2 : quiet_step s s2) by (etransitivity; eassumption).
  2: { inversion H; subst. left. split; [apply Hq2 | eauto]. }
  destruct (negb (truthy fe)).
  { expose H. inversion H; subst. left. split; [apply Hq2 | auto]. }
  expose H.
  match type of H with context [simulate_factor w fe ?st] =>
    pose proof (quiet_step_emit (EvLog Info seed_info_msg) _ _ I Hq2) as Hq3;
    pose proof (simulate_factor_no_raise w fe st) as Hnr;
    pose proof (simulate_factor_total w fe st) as Htot;
    destruct (simulate_factor w fe st) as [[sim | e |] s3] eqn:E3
  end;
  [ | exfalso; eapply Hnr; reflexivity | exfalso; apply Htot; reflexivity ].
  clear Hnr Htot. apply simulate_factor_quiet in E3.
  assert (Hq4 : quiet_step s s3) by (etransitivity; eassumption).
  destruct (lacks_alpha sim) eqn:Ela.
  { expose H. inversion H; subst. left. split; [apply Hq4 | auto]. }
  pose proof (lacks_alpha_false _ Ela) as Hal.
  unfold subscript in H. unfold dict_has in Hal.
  destruct (dict_get "alpha" sim) as [alpha_id |] eqn:Eal; [ | discriminate ].
  expose H.
  pose proof (check_factor_no_raise w alpha_id s3) as Hnr;
  pose proof (check_factor_total w alpha_id s3) as Htot;
  destruct (check_factor w alpha_id s3) as [[chk | e |] s4] eqn:E4;
  [ | exfalso; eapply Hnr; reflexivity | exfalso; apply Htot; reflexivity ].
  clear Hnr Htot. apply check_factor_quiet in E4.
  assert (Hq5 : quiet_step s s4) by (etransitivity; eassumption).
  destruct (negb (truthy chk)) eqn:Etr.
  { expose H. inversion H; subst. left. split; [apply Hq5 | auto]. }
  apply negb_false_iff in Etr.
  right.
  set (r := {| expression := fe; simulation := sim; check := chk; dataset_of := ds |}) in *.
  assert (Hacc : accepted r).
  { split; simpl; [unfold dict_has; now rewrite Eal | assumption]. }
  change (let (o0, s'0) := append r s4 in
          match o0 with
          | Ret _ =>
              let (o1, s'1) :=
                improve_loop w (Z.to_nat mi) ds mi ms 0 s'0 in
              match o1 with
              | Ret _ =>
                  let (o2, s'2) := checkpoint w cfg s'1 in
                  match o2 with
                  | Ret _ =>
                      let (o3, s'3) := gets count s'2 in
                      match o3 with
                      | Ret a =>
                          (if (max_factors cfg <=? a)%Z then ret Stop else ret Next) s'3
                      | Raise e => (Raise e, s'3)
                      | OutOfFuel => (OutOfFuel, s'3)
                      end
                  | Raise e => (Raise e, s'2)
                  | OutOfFuel => (OutOfFuel, s'2)
                  end
              | Raise e => (Raise e, s'1)
              | OutOfFuel => (OutOfFuel, s'1)
              end
          | Raise e => (Raise e, s'0)
          | OutOfFuel => (OutOfFuel, s'0)
          end = (o, s')) in H.
  assert (Eapp : append r s4 = (Ret tt, after_append r s4)) by reflexivity.
  rewrite Eapp in H.
  destruct (improve_loop w (Z.to_nat mi) ds mi ms 0 (after_append r s4))
    as [ol s5] eqn:E5.
  pose proof (improve_loop_spec w ds mi ms _ _ _ _ _ E5)
    as (dl & _ & _ & _ & _ & _ & _ & _ & Hfl).
  rewrite Z.sub_0_r in Hfl. specialize (Hfl (Nat.le_refl _)). subst ol.
  destruct (checkpoint w cfg s5) as [oc s6] eqn:E6.
  pose proof (checkpoint_spec _ _ _ _ _ E6) as (_ & _ & Hf6 & _ & _).
  exists ds, r, s4, s5, oc.
  destruct oc as [[] | e |]; [ | | congruence ].
  - unfold gets, ret in H. unfold cap_test.
    destruct (max_factors cfg <=? count s6)%Z eqn:Ecap;
      inversion H; subst; clear H; rewrite ?Ecap;
      (split; [exact Hq5 |]); (split; [exact Hacc |]);
      (split; [reflexivity |]); (split; [exact E5 |]);
      (split; [exact E6 |]); rewrite ?Ecap; reflexivity.
  - inversion H; subst; clear H.
    split; [exact Hq5 |]. split; [exact Hacc |].
    split; [reflexivity |]. split; [exact E5 |]. split; [exact E6 | reflexivity].
Qed.


Lemma mine_factors_unfold w cfg fuel mi ms :
  mine_factors w cfg fuel mi ms =
  (initialize w ;;
   mine_loop w cfg fuel (or_default mi (max_iterations cfg))
     (or_default ms (min_sharpe cfg)) ;;
   save_factors w Final)%py.
Proof. destruct mi, ms; reflexivity. Qed.

(** X17.  Whatever the services answer and whichever arguments are passed,
    a run never holds more than [max_factors + max_iterations] records (none
    when that sum is negative): the cap can be passed by the improvement
    loop of the last cycle only. *)
Theorem recorded_factors_bound
    (w : world) (cfg : config) (fuel : nat) (mi : option Z) (ms : option Q)
    (lg : bool) :
  (count (snd (mine_factors w cfg fuel mi ms (init_system lg)))
   <= Z.max 0 (max_factors cfg
               + Z.max 0 (or_default mi (max_iterations cfg))))%Z.
Proof.
  rewrite mine_factors_unfold. unfold bind.
  destruct (initialize w (init_system lg)) as [[[] | e |] s1] eqn:E1;
    apply initialize_quiet in E1; destruct E1 as [Hm1 _];
    try (simpl; unfold count; rewrite Hm1; simpl; lia).
  destruct (mine_loop w cfg fuel (or_default mi (max_iterations cfg))
              (or_default ms (min_sharpe cfg)) s1) as [[[] | e |] s2] eqn:E2;
    apply mine_loop_count_bound in E2;
    assert (Hc1 : count s1 = 0%Z) by (unfold count; rewrite Hm1; reflexivity);
    try (simpl; lia).
  rewrite (save_factors_count w Final s2). lia.
Qed.

(* ===================================================================== *)
(** ** A zero checkpoint interval *)
(* ===================================================================== *)

Lemma outer_cycle_zero_interval w cfg mi ms s o s' :
  save_interval cfg = 0%Z ->
  outer_cycle w cfg mi ms s = (o, s') ->
  mined_factors s' = mined_factors s \/
  (o = Ret Stop /\
   exists pre, trace s' = pre ++ [EvLog Error main_error_msg]).
Proof.
  intros Hz H. unfold outer_cycle, try_except in H.
  destruct (cycle_body w cfg mi ms s) as [oc s0] eqn:E.
  apply cycle_body_cases in E.
  destruct E as [[Hm Ho] | (ds & r & s4 & s5 & ock & _ & _ & _ & _ & Eck & Ho)].
  - left. destruct Ho as [-> | [e ->]].
    + inversion H; subst. exact Hm.
    + expose H. unfold bind in H. inversion H; subst. exact Hm.
  - right. apply checkpoint_spec in Eck.
    destruct Eck as (_ & _ & _ & Hraise & _). rewrite (Hraise Hz) in Ho.
    subst oc. expose H. unfold bind in H. inversion H; subst.
    split; [reflexivity |]. eexists. reflexivity.
Qed.

Lemma mine_loop_zero_interval w cfg mi ms :
  save_interval cfg = 0%Z ->
  forall fuel s o s',
    mine_loop w cfg fuel mi ms s = (o, s') ->
    mined_factors s' = mined_factors s \/
    (o = Ret tt /\
     (count s' <= count s + 1 + Z.max 0 mi)%Z /\
     exists pre, trace s' = pre ++ [EvLog Error main_error_msg]).
Proof.
  intros Hz.
  induction fuel as [| fuel IH]; intros s o s' H; simpl in H;
    unfold bind, gets in H;
    destruct (count s <? max_factors cfg)%Z eqn:Elt;
    try (inversion H; subst; left; reflexivity).
  destruct (outer_cycle w cfg mi ms s) as [oc s1] eqn:E.
  pose proof (outer_cycle_count _ _ _ _ _ _ _ E) as Hcount.
  pose proof (outer_cycle_zero_interval _ _ _ _ _ _ _ Hz E) as Hcases.
  destruct oc as [[] | e |].
  - destruct Hcases as [Hm | [Ho _]]; [| discriminate].
    apply IH in H. destruct H as [Hm' | (-> & Hc & Hpre)].
    + left. congruence.
    + right. split; [reflexivity |]. split; [| exact Hpre].
      unfold count in *. rewrite Hm in Hc. exact Hc.
  - inversion H; subst.
    destruct Hcases as [Hm | [_ Hpre]]; [left; exact Hm |].
    right. split; [reflexivity |]. split; [lia | exact Hpre].
  - inversion H; subst.
    destruct Hcases as [Hm | [Ho _]]; [left; exact Hm | discriminate].
  - inversion H; subst.
    destruct Hcases as [Hm | [Ho _]]; [left; exact Hm | discriminate].
Qed.

(** X18.  With [save_interval] zero, the test of lines 419-421 divides by
    zero in the first cycle that records a seed; the handler of the outer
    loop catches the error and ends the run.  So such a run keeps the records
    of at most one cycle, and a run that recorded anything ended with the
    error line of the main loop followed by the final snapshot. *)
Theorem zero_interval_ends_run_at_first_seed
    (w : world) (cfg : config) (fuel : nat) (mi : option Z) (ms : option Q)
    (lg : bool) :
  save_interval cfg = 0%Z ->
  let r := mine_factors w cfg fuel mi ms (init_system lg) in
  (count (snd r) <= 1 + Z.max 0 (or_default mi (max_iterations cfg)))%Z /\
  (mined_factors (snd r) <> [] ->
   exists pre,
     trace (snd r) = pre ++ [EvLog Error main_error_msg;
                             EvSave Final (mined_factors (snd r))]).
Proof.
  intros Hz r. subst r. rewrite mine_factors_unfold. unfold bind.
  destruct (initialize w (init_system lg)) as [[[] | e |] s1] eqn:E1;
    apply initialize_quiet in E1; destruct E1 as [Hm1 _];
    cbn [mined_factors init_system] in Hm1;
    try (cbn [snd]; unfold count; rewrite Hm1; split;
         [cbn [length Z.of_nat]; lia | intros Hn; contradiction]).
  destruct (mine_loop w cfg fuel (or_default mi (max_iterations cfg))
              (or_default ms (min_sharpe cfg)) s1) as [ol s2] eqn:E2.
  apply (mine_loop_zero_interval _ _ _ _ Hz) in E2.
  assert (Hc1 : count s1 = 0%Z) by (unfold count; rewrite Hm1; reflexivity).
  destruct E2 as [Hm | (-> & Hc & pre & Hpre)].
  - assert (Hm2 : mined_factors s2 = []) by congruence.
    assert (Hsame : mined_factors
                      (snd (match ol with
                            | Ret _ => save_factors w Final s2
                            | Raise e => (Raise e, s2)
                            | OutOfFuel => (OutOfFuel, s2)
                            end)) = []).
    { destruct ol; cbn [snd]; try exact Hm2.
      unfold save_factors, bind, gets, emit, modify, call. cbv beta iota.
      destruct (write_file w _ _); exact Hm2. }
    split.
    + unfold count. rewrite Hsame. cbn [length Z.of_nat]. lia.
    + intros Hn. contradiction.
  - assert (Hs : mined_factors (snd (save_factors w Final s2)) = mined_factors s2 /\
                 trace (snd (save_factors w Final s2))
                   = trace s2 ++ [EvSave Final (mined_factors s2)]).
    { unfold save_factors, bind, gets, emit, modify, call. cbv beta iota.
      destruct (write_file w _ _); split; reflexivity. }
    destruct Hs as [Hms Hts]. split.
    + unfold count in *. rewrite Hms. lia.
    + intros _. exists pre. rewrite Hts, Hms, Hpre, <- app_assoc. reflexivity.
Qed.

(** X18, on the run of the low-score world with a zero interval: one seed
    and its two revisions, then the error. *)
Lemma zero_interval_ends_run_at_first_seed_witness :
  save_interval zero_interval_config = 0%Z /\
  (count (snd zero_interval_run) <= 1 + Z.max 0 2)%Z /\
  (mined_factors (snd zero_interval_run) <> [] ->
   exists pre,
     trace (snd zero_interval_run) =
       pre ++ [EvLog Error main_error_msg;
               EvSave Final (mined_factors (snd zero_interval_run))]).
Proof.
  split; [reflexivity |].
  exact (zero_interval_ends_run_at_first_seed low_score_world
           zero_interval_config 20 None None true eq_refl).
Defined.

Example zero_interval_run_example :
  fst zero_interval_run = Ret tt /\
  count (snd zero_interval_run) = 3%Z /\
  snapshot_sizes (trace (snd zero_interval_run)) = [(Final, 3%nat)].
Proof. vm_compute. repeat split; reflexivity. Qed.


(* ===================================================================== *)
(** ** The acceptance test and the records *)
(* ===================================================================== *)



Lemma improve_loop_first_round w ds mi ms s o s' :
  (0 < mi)%Z ->
  improve_loop w (Z.to_nat mi) ds mi ms 0 s = (o, s') ->
  exists post, trace s' = trace s ++ EvGenerateNext (mined_factors s) :: post.
Proof.
  intros Hpos H.
  destruct (Z.to_nat mi) as [| n] eqn:En; [lia |].
  simpl in H.
  assert (Elt : (0 <? mi)%Z = true) by (apply Z.ltb_lt; exact Hpos).
  rewrite Elt in H. apply bind_inv in H.
  destruct H as [(go & s1 & Er & H) | [(e & Er & _) | (Er & _)]];
    apply improve_round_spec in Er;
    inversion Er as [d s'' Ht Hq Hm' | d r' tail go' s'' Ht Hq Hm' Hds Hacc Hv];
    subst.
  - inversion H; subst. exists d. exact Ht.
  - destruct go.
    + apply improve_loop_spec in H. destruct H as (d2 & Ht2 & _).
      eexists. rewrite Ht2, Ht, <- app_assoc. reflexivity.
    + inversion H; subst. eexists. exact Ht.
Qed.

(** X20.  The seed of a cycle is never compared with the target: once a
    seed has been recorded and [max_iterations] is positive, the next thing
    the cycle does is ask the generator for a revision, whatever the seed
    scored. *)
Theorem seed_is_always_revised
    (w : world) (cfg : config) (mi : Z) (ms : Q) (s : system)
    (o : outcome ctl) (s' : system) :
  (0 < mi)%Z ->
  cycle_body w cfg mi ms s = (o, s') ->
  mined_factors s' <> mined_factors s ->
  exists d seed post,
    Forall quiet d /\
    accepted seed /\
    trace s' = trace s ++ d ++
               EvAppend seed ::
               EvGenerateNext (mined_factors s ++ [seed]) :: post.
Proof.
  intros Hpos Hrun Hne.
  apply cycle_body_cases in Hrun.
  destruct Hrun as [[Hm _] | (ds & r & s4 & s5 & oc & Hq & Hacc & _ & El & Eck & _)];
    [contradiction |].
  apply (improve_loop_first_round _ _ _ _ _ _ _ Hpos) in El.
  destruct El as [post Hpost].
  apply checkpoint_spec in Eck. destruct Eck as (_ & Htc & _).
  destruct Hq as [Hm4 (d & Ht4 & Hd)].
  exists d, r. eexists. split; [exact Hd |]. split; [exact Hacc |].
  rewrite Htc, Hpost.
  unfold after_append, append, bind, modify, emit. cbn.
  rewrite Ht4, Hm4, <- !app_assoc. cbn. reflexivity.
Qed.

(** X20, in the world whose candidates all score 2 against a target of 1.5:
    the seed meets the target and a revision is asked for all the same. *)
Lemma seed_is_always_revised_witness :
  let run := cycle_body high_score_world small_config 1 (15 # 10)
               high_score_start in
  (0 < 1)%Z /\
  mined_factors (snd run) <> mined_factors high_score_start /\
  exists d seed post,
    Forall quiet d /\
    accepted seed /\
    trace (snd run) = trace high_score_start ++ d ++
               EvAppend seed ::
               EvGenerateNext (mined_factors high_score_start ++ [seed]) :: post.
Proof.
  intros run.
  assert (Hne : mined_factors (snd run) <> mined_factors high_score_start).
  { vm_compute. discriminate. }
  split; [lia |]. split; [exact Hne |].
  refine (seed_is_always_revised high_score_world small_config 1 (15 # 10)
            high_score_start (fst run) (snd run) _ _ Hne).
  - lia.
  - vm_compute. reflexivity.
Defined.


(* ===================================================================== *)
(** ** Dataset selection without a usable answer *)
(* ===================================================================== *)


